(** * ReactFlow playground: the graph state store ([src/store/useFlowStore.ts])

    A shallow embedding of the zustand store that holds the node graph, its
    persistence to [localStorage] and its JSON export and import, together
    with the properties the specification states about it.

    Conventions of the embedding.
    - A JavaScript [number] is an exact finite decimal [mant * 10^(-scale)];
      IEEE-754 rounding and the non-finite values are outside the embedding.
    - The store state follows the TypeScript interface [FlowState], with the
      fields of a node and of an edge that the store reads or writes; an
      optional field set to [undefined] is the same as an absent one. A JSON
      document whose shape does not fit the declared types leaves the typed
      embedding ([Stuck]).
    - [Date.now()], [Math.random()] and [toISOString()] are inputs
      ([Platform]); [JSON.stringify] and [JSON.parse] are a platform
      interface ([JSONCodec]) of which a reference implementation is given
      ([RefJSON]) and proved to give every value back.
    - [localStorage] is a finite map from keys to texts; a write always
      succeeds.
    - [setTimeout] callbacks are recorded, not run: every callback the store
      schedules is [saveToLocalStorage], see [fire_timer].
    - [onNodesChange], [onEdgesChange] and [onConnect] hand the collections
      to the rendering library and are not part of the embedding.
    - The handlers of [App.tsx], [NodeEditor.tsx] and [Toolbar.tsx] take the
      answers of [confirm] and [prompt] and the function [parseInt] as
      inputs; the file picker and the download of [handleExport] are not
      part of the embedding. *)

From Stdlib Require Import ZArith QArith Lqa Ascii String.
From Stdlib Require Import DecimalString DecimalNat DecimalZ DecimalFacts.
From stdpp Require Import base option list strings gmap.

Local Open Scope string_scope.
Local Open Scope nat_scope.
Local Open Scope list_scope.

(** ** Numbers *)

(** A finite JavaScript number, kept as the decimal it denotes. *)
Record number := Num { mant : Z; scale : nat }.

Definition num_of_Z (z : Z) : number := Num z 0.
Definition num_of_nat (n : nat) : number := Num (Z.of_nat n) 0.

Definition pow10 (k : nat) : Z := (10 ^ Z.of_nat k)%Z.

Definition num_add (a b : number) : number :=
  Num (mant a * pow10 (scale b) + mant b * pow10 (scale a))%Z (scale a + scale b).

Definition num_mul (a b : number) : number :=
  Num (mant a * mant b)%Z (scale a + scale b).



(** [`${n}`] for a count or an index. *)
Definition string_of_nat (n : nat) : string :=
  NilZero.string_of_uint (Nat.to_uint n).

(** [`${z}`] for an integer that may be negative, such as a clock
    reading. *)
Definition string_of_Z (z : Z) : string :=
  NilZero.string_of_int (Z.to_int z).

(** ** Data model *)

Module Position.
Record t := mk { x : number; y : number }.
End Position.

(** [interface NodeData { label: string; description?: string; color?: string }] *)
Module NodeData.
Record t := mk {
  label : string;
  description : option string;
  color : option string
}.
End NodeData.

(** [Partial<NodeData>]: every key may be absent ([None]); an optional key
    may also be present with the value [undefined] ([Some None]). *)
Module PartialNodeData.
Record t := mk {
  label : option string;
  description : option (option string);
  color : option (option string)
}.
End PartialNodeData.

(** The fields of [Node<NodeData>] the store reads or writes. *)
Module Node.
Record t := mk {
  id : string;
  position : Position.t;
  data : NodeData.t;
  type : option string;
  hidden : option bool
}.
End Node.

Module Edge.
Record t := mk {
  id : string;
  source : string;
  target : string;
  animated : option bool
}.
End Edge.

(** The data part of [FlowState]. *)
Record FlowState := mkFlowState {
  nodes : list Node.t;
  edges : list Edge.t;
  selectedNode : option Node.t
}.

(** The argument of zustand's [set]: the keys present are replaced. *)
Record Patch := mkPatch {
  patch_nodes : option (list Node.t);
  patch_edges : option (list Edge.t);
  patch_selectedNode : option (option Node.t)
}.

Definition apply_patch (p : Patch) (s : FlowState) : FlowState :=
  {| nodes := default (nodes s) (patch_nodes p);
     edges := default (edges s) (patch_edges p);
     selectedNode := default (selectedNode s) (patch_selectedNode p) |}.

(** ** The world the store runs in *)

Definition STORAGE_KEY : string := "reactflow-workflow".

Inductive Error :=
| SyntaxError
| TypeError
| PlainError (msg : string).

Record World := mkWorld {
  store : FlowState;
  localStorage : gmap string string;
  timers : list nat;          (* delays of the pending [saveToLocalStorage] callbacks *)
  console : list (string * Error);  (* [console.error] lines, oldest first *)
  alerts : list string        (* [alert] texts, oldest first *)
}.

(** The outcome of running a piece of store code: it returns, it throws, or
    it would store a value that does not have the declared type. *)
Inductive Result (A : Type) :=
| Ok (a : A) (w : World)
| Raise (e : Error) (w : World)
| Stuck.
Arguments Ok {A} a w.
Arguments Raise {A} e w.
Arguments Stuck {A}.

Definition Action (A : Type) : Type := World → Result A.

Definition ret {A} (a : A) : Action A := λ w, Ok a w.

Definition bind {A B} (m : Action A) (k : A → Action B) : Action B :=
  λ w, match m w with
       | Ok a w' => k a w'
       | Raise e w' => Raise e w'
       | Stuck => Stuck
       end.

Definition throw {A} (e : Error) : Action A := λ w, Raise e w.

Definition stuck {A} : Action A := λ _, Stuck.

(** [try { body } catch (error) { handler }] *)
Definition try_catch {A} (body : Action A) (handler : Error → Action A) : Action A :=
  λ w, match body w with
       | Raise e w' => handler e w'
       | r => r
       end.

Declare Scope action_scope.
Delimit Scope action_scope with action.
Notation "'let*' x := m 'in' k" := (bind m (λ x, k))
  (at level 10, x name, m at level 100, k at level 200, only parsing) : action_scope.
Notation "m ;;; k" := (bind m (λ _, k))
  (at level 100, k at level 200, right associativity) : action_scope.
Local Open Scope action_scope.

(** zustand's [get()] and [set(partial)]. *)
Definition get : Action FlowState := λ w, Ok (store w) w.

Definition set (p : Patch) : Action unit :=
  λ w, Ok tt {| store := apply_patch p (store w);
                localStorage := localStorage w;
                timers := timers w;
                console := console w;
                alerts := alerts w |}.

(** [setTimeout(() => get().saveToLocalStorage(), delay)] *)
Definition setTimeout_save (delay : nat) : Action unit :=
  λ w, Ok tt {| store := store w;
                localStorage := localStorage w;
                timers := timers w ++ [delay];
                console := console w;
                alerts := alerts w |}.

Definition console_error (line : string) (error : Error) : Action unit :=
  λ w, Ok tt {| store := store w;
                localStorage := localStorage w;
                timers := timers w;
                console := console w ++ [(line, error)];
                alerts := alerts w |}.

Definition alert (text : string) : Action unit :=
  λ w, Ok tt {| store := store w;
                localStorage := localStorage w;
                timers := timers w;
                console := console w;
                alerts := alerts w ++ [text] |}.

Definition localStorage_getItem (key : string) : Action (option string) :=
  λ w, Ok (localStorage w !! key) w.


(** What the platform answers during one store operation: the value of the
    [k]-th call of [Date.now()] and of [Math.random()], and the text of
    [new Date().toISOString()]. *)
Record Platform := mkPlatform {
  Date_now : nat → Z;
  Math_random : nat → number;
  Date_toISOString : string
}.

(** ** Initial state *)

Definition initialNodes : list Node.t :=
  [ {| Node.id := "1";
       Node.position := Position.mk (num_of_Z 250) (num_of_Z 100);
       Node.data := {| NodeData.label := "Start Node";
                       NodeData.description := Some "This is the starting point";
                       NodeData.color := None |};
       Node.type := Some "default";
       Node.hidden := None |};
    {| Node.id := "2";
       Node.position := Position.mk (num_of_Z 250) (num_of_Z 250);
       Node.data := {| NodeData.label := "Process Node";
                       NodeData.description := Some "Processing happens here";
                       NodeData.color := None |};
       Node.type := Some "default";
       Node.hidden := None |} ].

Definition initialEdges : list Edge.t :=
  [ {| Edge.id := "e1-2"; Edge.source := "1"; Edge.target := "2";
       Edge.animated := Some true |} ].

Definition initialState : FlowState :=
  {| nodes := initialNodes; edges := initialEdges; selectedNode := None |}.

(** The world when the module has been loaded: nothing stored, nothing
    scheduled, nothing printed. *)
Definition initialWorld : World :=
  {| store := initialState; localStorage := ∅; timers := [];
     console := []; alerts := [] |}.

(** ** Store operations *)

Definition onNodeClick (node : Node.t) : Action unit :=
  set {| patch_nodes := None; patch_edges := None;
         patch_selectedNode := Some (Some node) |}.

(** [addNode(position = { x: Math.random() * 500, y: Math.random() * 500 })] *)
Definition addNode (env : Platform) (position : option Position.t) : Action unit :=
  let position :=
    default (Position.mk (num_mul (Math_random env 0) (num_of_Z 500))
                         (num_mul (Math_random env 1) (num_of_Z 500)))
            position in
  let* s := get in
  let newNode :=
    {| Node.id := "node-" +:+ string_of_Z (Date_now env 0);
       Node.position := position;
       Node.data := {| NodeData.label := "Node " +:+ string_of_nat (length (nodes s) + 1);
                       NodeData.description := Some "New node";
                       NodeData.color := None |};
       Node.type := Some "default";
       Node.hidden := None |} in
  let* s := get in
  set {| patch_nodes := Some (nodes s ++ [newNode]); patch_edges := None;
         patch_selectedNode := None |} ;;;
  setTimeout_save 100.

(** [{ ...d, ...p }] on node data: every key of [p] overwrites. *)
Definition merge_data (d : NodeData.t) (p : PartialNodeData.t) : NodeData.t :=
  {| NodeData.label := default (NodeData.label d) (PartialNodeData.label p);
     NodeData.description :=
       default (NodeData.description d) (PartialNodeData.description p);
     NodeData.color := default (NodeData.color d) (PartialNodeData.color p) |}.

(** [{ ...node, data: { ...node.data, ...data } }] *)
Definition with_merged_data (data : PartialNodeData.t) (node : Node.t) : Node.t :=
  {| Node.id := Node.id node;
     Node.position := Node.position node;
     Node.data := merge_data (Node.data node) data;
     Node.type := Node.type node;
     Node.hidden := Node.hidden node |}.

Definition updateNode (nodeId : string) (data : PartialNodeData.t) : Action unit :=
  let* s := get in
  set {| patch_nodes :=
           Some ((λ node, if decide (Node.id node = nodeId)
                          then with_merged_data data node
                          else node) <$> nodes s);
         patch_edges := None; patch_selectedNode := None |} ;;;
  let* s := get in
  match selectedNode s with
  | Some selected =>
      if decide (Node.id selected = nodeId)
      then set {| patch_nodes := None; patch_edges := None;
                  patch_selectedNode := Some (Some (with_merged_data data selected)) |}
      else ret tt
  | None => ret tt
  end ;;;
  setTimeout_save 100.

Definition deleteNode (nodeId : string) : Action unit :=
  let* s := get in
  set {| patch_nodes := Some (filter (λ node, Node.id node ≠ nodeId) (nodes s));
         patch_edges :=
           Some (filter (λ edge, Edge.source edge ≠ nodeId ∧ Edge.target edge ≠ nodeId)
                        (edges s));
         patch_selectedNode :=
           Some (match selectedNode s with
                 | Some selected =>
                     if decide (Node.id selected = nodeId) then None else Some selected
                 | None => None
                 end) |} ;;;
  setTimeout_save 100.

Definition setSelectedNode (node : option Node.t) : Action unit :=
  set {| patch_nodes := None; patch_edges := None; patch_selectedNode := Some node |}.

(** [!node.hidden]: an absent flag counts as false. *)
Definition is_hidden (node : Node.t) : bool := default false (Node.hidden node).

(** [{ ...node, hidden: !node.hidden }] *)
Definition with_toggled_hidden (node : Node.t) : Node.t :=
  {| Node.id := Node.id node;
     Node.position := Node.position node;
     Node.data := Node.data node;
     Node.type := Node.type node;
     Node.hidden := Some (negb (is_hidden node)) |}.

Definition toggleNodeVisibility (nodeId : string) : Action unit :=
  let* s := get in
  set {| patch_nodes :=
           Some ((λ node, if decide (Node.id node = nodeId)
                          then with_toggled_hidden node
                          else node) <$> nodes s);
         patch_edges := None; patch_selectedNode := None |} ;;;
  setTimeout_save 100.

Definition clearFlow : Action unit :=
  set {| patch_nodes := Some []; patch_edges := Some [];
         patch_selectedNode := Some None |} ;;;
  setTimeout_save 100.

(** [Math.ceil(Math.sqrt(count))] on a count that is a natural number. *)
Definition Math_ceil_sqrt (count : nat) : nat := Nat.sqrt_up count.

Definition spacing : nat := 200.

(** The node pushed by iteration [i] of the loop of [generateBulkNodes]. *)
Definition bulk_node (env : Platform) (gridSize i : nat) : Node.t :=
  let row := i / gridSize in
  let col := i mod gridSize in
  {| Node.id := "bulk-node-" +:+ string_of_Z (Date_now env i) +:+ "-" +:+ string_of_nat i;
     Node.position :=
       Position.mk
         (num_add (num_of_nat (col * spacing))
                  (num_mul (Math_random env (2 * i)) (num_of_Z 50)))
         (num_add (num_of_nat (row * spacing))
                  (num_mul (Math_random env (2 * i + 1)) (num_of_Z 50)));
     Node.data := {| NodeData.label := "Node " +:+ string_of_nat (i + 1);
                     NodeData.description :=
                       Some ("Bulk generated node " +:+ string_of_nat (i + 1));
                     NodeData.color := None |};
     Node.type := Some "default";
     Node.hidden := None |}.

(** [for (let i = 0; i < count; i++) newNodes.push(...)], started at [i]
    with [todo] iterations left. *)
Fixpoint bulk_loop (env : Platform) (gridSize i todo : nat)
    (newNodes : list Node.t) : list Node.t :=
  match todo with
  | 0 => newNodes
  | S todo' => bulk_loop env gridSize (S i) todo' (newNodes ++ [bulk_node env gridSize i])
  end.

Definition generateBulkNodes (env : Platform) (count : nat) : Action unit :=
  let gridSize := Math_ceil_sqrt count in
  let newNodes := bulk_loop env gridSize 0 count [] in
  let* s := get in
  set {| patch_nodes := Some (nodes s ++ newNodes); patch_edges := None;
         patch_selectedNode := None |} ;;;
  setTimeout_save 100.

(** ** JSON values and the typed view of them *)

(** What [JSON.parse] can return. An object keeps its members in the order
    of the text; a property read takes the last member of that name. *)
#[local] Set Warnings "-register-all".
Inductive JsVal :=
| JNull
| JBool (b : bool)
| JNumber (n : number)
| JString (s : string)
| JArray (items : list JsVal)
| JObject (members : list (string * JsVal)).

Fixpoint lookup_member (key : string) (members : list (string * JsVal)) : option JsVal :=
  match members with
  | [] => None
  | (k, v) :: rest =>
      match lookup_member key rest with
      | Some v' => Some v'
      | None => if String.eqb k key then Some v else None
      end
  end.

(** [value.key] for a key that no prototype defines (such as [nodes] and
    [edges]): [None] is [undefined], reading a property of [null] throws. *)
Definition get_prop (value : JsVal) (key : string) : Action (option JsVal) :=
  match value with
  | JNull => throw TypeError
  | JObject members => ret (lookup_member key members)
  | _ => ret None
  end.

(** Truthiness of a value that may be [undefined]. *)
Definition truthy (v : option JsVal) : bool :=
  match v with
  | None => false
  | Some JNull => false
  | Some (JBool b) => b
  | Some (JNumber n) => negb (Z.eqb (mant n) 0)
  | Some (JString s) => negb (String.eqb s "")
  | Some (JArray _) => true
  | Some (JObject _) => true
  end.

Definition optional_member {A} (key : string) (inj : A → JsVal) (o : option A)
    : list (string * JsVal) :=
  match o with
  | Some a => [(key, inj a)]
  | None => []
  end.

Definition position_to_js (p : Position.t) : JsVal :=
  JObject [("x", JNumber (Position.x p)); ("y", JNumber (Position.y p))].

Definition data_to_js (d : NodeData.t) : JsVal :=
  JObject ([("label", JString (NodeData.label d))]
           ++ optional_member "description" JString (NodeData.description d)
           ++ optional_member "color" JString (NodeData.color d)).

Definition node_to_js (n : Node.t) : JsVal :=
  JObject ([("id", JString (Node.id n));
            ("position", position_to_js (Node.position n));
            ("data", data_to_js (Node.data n))]
           ++ optional_member "type" JString (Node.type n)
           ++ optional_member "hidden" JBool (Node.hidden n)).

Definition edge_to_js (e : Edge.t) : JsVal :=
  JObject ([("id", JString (Edge.id e));
            ("source", JString (Edge.source e));
            ("target", JString (Edge.target e))]
           ++ optional_member "animated" JBool (Edge.animated e)).

Definition nodes_to_js (l : list Node.t) : JsVal := JArray (node_to_js <$> l).
Definition edges_to_js (l : list Edge.t) : JsVal := JArray (edge_to_js <$> l).

(** The declared TypeScript type read off a value: [None] when the value
    does not have that type. The code performs no such check; the embedding
    needs it to stay inside [FlowState]. *)
Definition as_string (v : JsVal) : option string :=
  match v with JString s => Some s | _ => None end.

Definition as_bool (v : JsVal) : option bool :=
  match v with JBool b => Some b | _ => None end.

Definition as_number (v : JsVal) : option number :=
  match v with JNumber n => Some n | _ => None end.

Definition required {A} (cast : JsVal → option A) (v : option JsVal) : option A :=
  match v with Some v => cast v | None => None end.

Definition optional {A} (cast : JsVal → option A) (v : option JsVal) : option (option A) :=
  match v with
  | Some v => match cast v with Some a => Some (Some a) | None => None end
  | None => Some None
  end.

Definition only_keys (allowed : list string) (members : list (string * JsVal)) : bool :=
  forallb (λ kv, existsb (String.eqb (fst kv)) allowed) members.

Definition as_position (v : JsVal) : option Position.t :=
  match v with
  | JObject ms =>
      if only_keys ["x"; "y"] ms then
        match required as_number (lookup_member "x" ms),
              required as_number (lookup_member "y" ms) with
        | Some x, Some y => Some (Position.mk x y)
        | _, _ => None
        end
      else None
  | _ => None
  end.

Definition as_data (v : JsVal) : option NodeData.t :=
  match v with
  | JObject ms =>
      if only_keys ["label"; "description"; "color"] ms then
        match required as_string (lookup_member "label" ms),
              optional as_string (lookup_member "description" ms),
              optional as_string (lookup_member "color" ms) with
        | Some l, Some d, Some c => Some (NodeData.mk l d c)
        | _, _, _ => None
        end
      else None
  | _ => None
  end.

Definition as_node (v : JsVal) : option Node.t :=
  match v with
  | JObject ms =>
      if only_keys ["id"; "position"; "data"; "type"; "hidden"] ms then
        match required as_string (lookup_member "id" ms),
              required as_position (lookup_member "position" ms),
              required as_data (lookup_member "data" ms),
              optional as_string (lookup_member "type" ms),
              optional as_bool (lookup_member "hidden" ms) with
        | Some i, Some p, Some d, Some t, Some h => Some (Node.mk i p d t h)
        | _, _, _, _, _ => None
        end
      else None
  | _ => None
  end.

Definition as_edge (v : JsVal) : option Edge.t :=
  match v with
  | JObject ms =>
      if only_keys ["id"; "source"; "target"; "animated"] ms then
        match required as_string (lookup_member "id" ms),
              required as_string (lookup_member "source" ms),
              required as_string (lookup_member "target" ms),
              optional as_bool (lookup_member "animated" ms) with
        | Some i, Some s, Some t, Some a => Some (Edge.mk i s t a)
        | _, _, _, _ => None
        end
      else None
  | _ => None
  end.

Fixpoint as_list {A} (cast : JsVal → option A) (items : list JsVal) : option (list A) :=
  match items with
  | [] => Some []
  | v :: rest =>
      match cast v, as_list cast rest with
      | Some a, Some l => Some (a :: l)
      | _, _ => None
      end
  end.

Definition as_nodes (v : option JsVal) : option (list Node.t) :=
  match v with Some (JArray items) => as_list as_node items | _ => None end.

Definition as_edges (v : option JsVal) : option (list Edge.t) :=
  match v with Some (JArray items) => as_list as_edge items | _ => None end.

(** [set({ nodes, edges, selectedNode: null })] with values that come out
    of [JSON.parse]. *)
Definition set_parsed (nodes edges : option JsVal) : Action unit :=
  match as_nodes nodes, as_edges edges with
  | Some ns, Some es =>
      set {| patch_nodes := Some ns; patch_edges := Some es;
             patch_selectedNode := Some None |}
  | _, _ => stuck
  end.

(** ** Persistence, export and import *)



(** The platform's JSON object: [JSON_stringify v indent] is
    [JSON.stringify(v, null, indent)] ([JSON.stringify(v)] at indent 0), and
    [JSON_parse] answers [None] where [JSON.parse] throws a [SyntaxError]. *)
Record JSONCodec := mkJSONCodec {
  JSON_stringify : JsVal → nat → string;
  JSON_parse : string → option JsVal
}.

Section Persistence.
Context (JSON : JSONCodec).

Definition parse_or_throw (text : string) : Action JsVal :=
  match JSON_parse JSON text with
  | Some v => ret v
  | None => throw SyntaxError
  end.


Definition loadFromLocalStorage : Action unit :=
  try_catch
    (let* saved := localStorage_getItem STORAGE_KEY in
     match saved with
     | Some text =>
         if String.eqb text "" then ret tt
         else
           let* parsed := parse_or_throw text in
           let* nodes := get_prop parsed "nodes" in
           let* edges := get_prop parsed "edges" in
           set_parsed nodes edges
     | None => ret tt
     end)
    (λ error, console_error "Failed to load from localStorage:" error).


Definition importFromJSON (json : string) : Action unit :=
  try_catch
    (let* data := parse_or_throw json in
     let* nodes := get_prop data "nodes" in
     if truthy nodes then
       let* edges := get_prop data "edges" in
       if truthy edges then
         set_parsed nodes edges ;;;
         setTimeout_save 100
       else throw (PlainError "Invalid JSON format")
     else throw (PlainError "Invalid JSON format"))
    (λ error,
       console_error "Failed to import JSON:" error ;;;
       alert "Failed to import workflow. Please check the JSON format.").

End Persistence.

(** ** A reference JSON codec

    A printer that lays a value out as [JSON.stringify] does and a
    recursive-descent parser for JSON text. A number is printed as its
    mantissa, followed by [e-scale] when the scale is not zero. The parser
    reads the escapes [\uXXXX] below [\u0080] only. *)
Module RefJSON.

Definition LF : ascii := ascii_of_nat 10.
Definition CR : ascii := ascii_of_nat 13.
Definition TAB : ascii := ascii_of_nat 9.
Definition BS : ascii := ascii_of_nat 8.
Definition FF : ascii := ascii_of_nat 12.
Definition QUOTE : ascii := ascii_of_nat 34.
Definition BACKSLASH : ascii := ascii_of_nat 92.

Definition hex_digit (n : nat) : ascii :=
  if n <? 10 then ascii_of_nat (48 + n) else ascii_of_nat (87 + n).

Definition hex_value (c : ascii) : option nat :=
  let n := nat_of_ascii c in
  if (48 <=? n) && (n <=? 57) then Some (n - 48)
  else if (97 <=? n) && (n <=? 102) then Some (n - 87)
  else if (65 <=? n) && (n <=? 70) then Some (n - 55)
  else None.

Definition escape_char (c : ascii) : string :=
  let n := nat_of_ascii c in
  if Ascii.eqb c QUOTE then String BACKSLASH (String QUOTE "")
  else if Ascii.eqb c BACKSLASH then String BACKSLASH (String BACKSLASH "")
  else if Ascii.eqb c LF then String BACKSLASH "n"
  else if Ascii.eqb c CR then String BACKSLASH "r"
  else if Ascii.eqb c TAB then String BACKSLASH "t"
  else if Ascii.eqb c BS then String BACKSLASH "b"
  else if Ascii.eqb c FF then String BACKSLASH "f"
  else if n <? 32 then
    String BACKSLASH
      (String "u" (String "0" (String "0"
        (String (hex_digit (n / 16)) (String (hex_digit (n mod 16)) "")))))
  else String c "".

Fixpoint escape (s : string) : string :=
  match s with
  | EmptyString => ""
  | String c rest => escape_char c +:+ escape rest
  end.

Definition quote (s : string) : string :=
  String QUOTE (escape s +:+ String QUOTE "").

Definition print_number (n : number) : string :=
  string_of_Z (mant n) +:+
  match scale n with
  | 0 => ""
  | S _ => "e-" +:+ string_of_Z (Z.of_nat (scale n))
  end.

Fixpoint spaces (k : nat) : string :=
  match k with
  | 0 => ""
  | S k' => String " " (spaces k')
  end.

(** The line break before an item at nesting depth [level]. *)
Definition break (indent level : nat) : string :=
  match indent with
  | 0 => ""
  | S _ => String LF (spaces (indent * level))
  end.

Definition colon (indent : nat) : string :=
  match indent with
  | 0 => ":"
  | S _ => ": "
  end.

(** The items of an array after the first, each behind a comma. *)
Fixpoint items_tail (pr : JsVal → string) (brk : string) (l : list JsVal) : string :=
  match l with
  | [] => ""
  | item :: l' => "," +:+ brk +:+ pr item +:+ items_tail pr brk l'
  end.

(** The members of an object after the first, each behind a comma. *)
Fixpoint members_tail (pr : JsVal → string) (brk col : string)
    (l : list (string * JsVal)) : string :=
  match l with
  | [] => ""
  | (key, item) :: l' =>
      "," +:+ brk +:+ quote key +:+ col +:+ pr item +:+ members_tail pr brk col l'
  end.

Fixpoint print (indent level : nat) (v : JsVal) : string :=
  match v with
  | JNull => "null"
  | JBool true => "true"
  | JBool false => "false"
  | JNumber n => print_number n
  | JString s => quote s
  | JArray [] => "[]"
  | JArray (first :: others) =>
      "[" +:+ break indent (S level) +:+ print indent (S level) first +:+
      items_tail (print indent (S level)) (break indent (S level)) others +:+
      break indent level +:+ "]"
  | JObject [] => "{}"
  | JObject ((key, first) :: others) =>
      "{" +:+ break indent (S level) +:+ quote key +:+ colon indent +:+
      print indent (S level) first +:+
      members_tail (print indent (S level)) (break indent (S level)) (colon indent) others +:+
      break indent level +:+ "}"
  end.

Definition stringify (v : JsVal) (indent : nat) : string := print indent 0 v.

Definition is_ws (c : ascii) : bool :=
  Ascii.eqb c " " || Ascii.eqb c LF || Ascii.eqb c CR || Ascii.eqb c TAB.

Fixpoint skip_ws (s : string) : string :=
  match s with
  | String c rest => if is_ws c then skip_ws rest else s
  | EmptyString => s
  end.

Fixpoint strip_prefix (p s : string) : option string :=
  match p, s with
  | EmptyString, _ => Some s
  | String a p', String b s' => if Ascii.eqb a b then strip_prefix p' s' else None
  | String _ _, EmptyString => None
  end.

Definition is_digit (c : ascii) : bool :=
  let n := nat_of_ascii c in (48 <=? n) && (n <=? 57).

(** The longest prefix of digits, and what follows it. *)
Fixpoint span_digits (s : string) : string * string :=
  match s with
  | String c rest =>
      if is_digit c
      then let '(ds, r) := span_digits rest in (String c ds, r)
      else ("", s)
  | EmptyString => ("", "")
  end.

(** The text after the opening quote of a string literal. *)
Fixpoint parse_string_body (s : string) : option (string * string) :=
  match s with
  | EmptyString => None
  | String c rest =>
      if Ascii.eqb c QUOTE then Some ("", rest)
      else if Ascii.eqb c BACKSLASH then
        match rest with
        | String e rest' =>
            let continue (ch : ascii) (r : option (string * string)) :=
              match r with
              | Some (body, after) => Some (String ch body, after)
              | None => None
              end in
            if Ascii.eqb e QUOTE then continue QUOTE (parse_string_body rest')
            else if Ascii.eqb e BACKSLASH then continue BACKSLASH (parse_string_body rest')
            else if Ascii.eqb e "/" then continue "/"%char (parse_string_body rest')
            else if Ascii.eqb e "n" then continue LF (parse_string_body rest')
            else if Ascii.eqb e "r" then continue CR (parse_string_body rest')
            else if Ascii.eqb e "t" then continue TAB (parse_string_body rest')
            else if Ascii.eqb e "b" then continue BS (parse_string_body rest')
            else if Ascii.eqb e "f" then continue FF (parse_string_body rest')
            else if Ascii.eqb e "u" then
              match rest' with
              | String h1 (String h2 (String h3 (String h4 rest''))) =>
                  match hex_value h1, hex_value h2, hex_value h3, hex_value h4 with
                  | Some 0, Some 0, Some a, Some b =>
                      if a <? 8
                      then continue (ascii_of_nat (16 * a + b)) (parse_string_body rest'')
                      else None
                  | _, _, _, _ => None
                  end
              | _ => None
              end
            else None
        | EmptyString => None
        end
      else if nat_of_ascii c <? 32 then None
      else
        match parse_string_body rest with
        | Some (body, after) => Some (String c body, after)
        | None => None
        end
  end.

Definition digits_value (ds : string) : option Z :=
  match NilEmpty.uint_of_string ds with
  | Some d => Some (Z.of_uint d)
  | None => None
  end.

(** [(. digits)?]: the digits of the fraction and what follows. *)
Definition parse_fraction (s : string) : option (string * string) :=
  match s with
  | String c r =>
      if Ascii.eqb c "." then
        let '(frac_part, r') := span_digits r in
        if String.eqb frac_part "" then None else Some (frac_part, r')
      else Some ("", s)
  | EmptyString => Some ("", s)
  end.

(** [([eE] [+-]? digits)?]: the exponent, 0 when there is none. *)
Definition parse_exponent (s : string) : option (Z * string) :=
  match s with
  | String e r =>
      if Ascii.eqb e "e" || Ascii.eqb e "E" then
        let '(exp_negative, r1) :=
          match r with
          | String sign r' =>
              if Ascii.eqb sign "-" then (true, r')
              else if Ascii.eqb sign "+" then (false, r')
              else (false, r)
          | EmptyString => (false, r)
          end in
        let '(exp_part, r2) := span_digits r1 in
        if String.eqb exp_part "" then None
        else
          match digits_value exp_part with
          | Some z => Some (if exp_negative then (- z)%Z else z, r2)
          | None => None
          end
      else Some (0%Z, s)
  | EmptyString => Some (0%Z, s)
  end.

(** [digits (. digits)? ([eE] [+-]? digits)?], a leading zero only on its
    own; [negative] tells that a minus sign came before. *)
Definition parse_magnitude (negative : bool) (s : string) : option (number * string) :=
  let '(int_part, s2) := span_digits s in
  match int_part with
  | EmptyString => None
  | String d more =>
      if Ascii.eqb d "0" && negb (String.eqb more "") then None
      else
        match parse_fraction s2 with
        | Some (frac_part, s3) =>
            match digits_value (int_part +:+ frac_part), parse_exponent s3 with
            | Some m, Some (e, s4) =>
                let m := if negative then (- m)%Z else m in
                let shift := (e - Z.of_nat (String.length frac_part))%Z in
                if (0 <=? shift)%Z
                then Some (Num (m * 10 ^ shift)%Z 0, s4)
                else Some (Num m (Z.to_nat (- shift)), s4)
            | _, _ => None
            end
        | None => None
        end
  end.

Definition parse_number (s : string) : option (number * string) :=
  match s with
  | String c r =>
      if Ascii.eqb c "-" then parse_magnitude true r else parse_magnitude false s
  | EmptyString => None
  end.

Fixpoint parse_value (fuel : nat) (s : string) : option (JsVal * string) :=
  match fuel with
  | 0 => None
  | S fuel' =>
      match skip_ws s with
      | EmptyString => None
      | String c rest =>
          if Ascii.eqb c "n" then
            match strip_prefix "ull" rest with
            | Some r => Some (JNull, r)
            | None => None
            end
          else if Ascii.eqb c "t" then
            match strip_prefix "rue" rest with
            | Some r => Some (JBool true, r)
            | None => None
            end
          else if Ascii.eqb c "f" then
            match strip_prefix "alse" rest with
            | Some r => Some (JBool false, r)
            | None => None
            end
          else if Ascii.eqb c QUOTE then
            match parse_string_body rest with
            | Some (str, r) => Some (JString str, r)
            | None => None
            end
          else if Ascii.eqb c "[" then
            match strip_prefix "]" (skip_ws rest) with
            | Some r => Some (JArray [], r)
            | None =>
                match parse_items fuel' rest with
                | Some (items, r) => Some (JArray items, r)
                | None => None
                end
            end
          else if Ascii.eqb c "{" then
            match strip_prefix "}" (skip_ws rest) with
            | Some r => Some (JObject [], r)
            | None =>
                match parse_members fuel' rest with
                | Some (members, r) => Some (JObject members, r)
                | None => None
                end
            end
          else
            match parse_number (String c rest) with
            | Some (n, r) => Some (JNumber n, r)
            | None => None
            end
      end
  end
with parse_items (fuel : nat) (s : string) : option (list JsVal * string) :=
  match fuel with
  | 0 => None
  | S fuel' =>
      match parse_value fuel' s with
      | Some (item, r) =>
          match skip_ws r with
          | String c r' =>
              if Ascii.eqb c "," then
                match parse_items fuel' r' with
                | Some (items, r'') => Some (item :: items, r'')
                | None => None
                end
              else if Ascii.eqb c "]" then Some ([item], r')
              else None
          | EmptyString => None
          end
      | None => None
      end
  end
with parse_members (fuel : nat) (s : string) : option (list (string * JsVal) * string) :=
  match fuel with
  | 0 => None
  | S fuel' =>
      match strip_prefix (String QUOTE "") (skip_ws s) with
      | Some r0 =>
          match parse_string_body r0 with
          | Some (key, r1) =>
              match strip_prefix ":" (skip_ws r1) with
              | Some r2 =>
                  match parse_value fuel' r2 with
                  | Some (item, r3) =>
                      match skip_ws r3 with
                      | String c r4 =>
                          if Ascii.eqb c "," then
                            match parse_members fuel' r4 with
                            | Some (members, r5) => Some ((key, item) :: members, r5)
                            | None => None
                            end
                          else if Ascii.eqb c "}" then Some ([(key, item)], r4)
                          else None
                      | EmptyString => None
                      end
                  | None => None
                  end
              | None => None
              end
          | None => None
          end
      | None => None
      end
  end.

Definition parse (text : string) : option JsVal :=
  match parse_value (S (String.length text)) text with
  | Some (v, rest) =>
      match skip_ws rest with
      | EmptyString => Some v
      | String _ _ => None
      end
  | None => None
  end.

Definition codec : JSONCodec :=
  {| JSON_stringify := stringify; JSON_parse := parse |}.

(** The text does not go on with a digit. *)
Definition digits_end (s : string) : bool :=
  match s with
  | String c _ => negb (is_digit c)
  | EmptyString => true
  end.

(** The text goes on with neither a digit nor a fraction. *)
Definition fraction_end (s : string) : bool :=
  match s with
  | String c _ => negb (is_digit c) && negb (Ascii.eqb c ".")
  | EmptyString => true
  end.

(** The text cannot go on a number. *)
Definition number_end (s : string) : bool :=
  match s with
  | String c _ =>
      negb (is_digit c) && negb (Ascii.eqb c ".") &&
      negb (Ascii.eqb c "e") && negb (Ascii.eqb c "E")
  | EmptyString => true
  end.

(** The first character of a number is a digit or the minus sign. *)
Definition number_head (c : ascii) : bool := is_digit c || Ascii.eqb c "-".

Fixpoint all_ws (s : string) : bool :=
  match s with
  | String c rest => is_ws c && all_ws rest
  | EmptyString => true
  end.

(** The fuel that parsing a printed value takes. *)
Fixpoint size (v : JsVal) : nat :=
  match v with
  | JArray items => S (list_sum ((λ item, S (size item)) <$> items))
  | JObject members => S (list_sum ((λ kv, S (size (snd kv))) <$> members))
  | _ => 1
  end.

Definition size_items (l : list JsVal) : nat :=
  list_sum ((λ item, S (size item)) <$> l).

Definition size_members (l : list (string * JsVal)) : nat :=
  list_sum ((λ kv, S (size (snd kv))) <$> l).

End RefJSON.

(** ** Vocabulary of the statements *)

(** The world after a store operation that only touches the store and
    schedules one deferred save. *)
Definition after_mutation (s : FlowState) (w : World) : World :=
  {| store := s;
     localStorage := localStorage w;
     timers := timers w ++ [100];
     console := console w;
     alerts := alerts w |}.

(** A sequence of [addNode] calls, each with what the platform answers
    during it and its argument. *)
Fixpoint addNode_calls (calls : list (Platform * option Position.t)) : Action unit :=
  match calls with
  | [] => ret tt
  | (env, position) :: rest => addNode env position ;;; addNode_calls rest
  end.

(** The keys of [NodeData], to speak of a payload key by key. *)
Inductive DataKey := KeyLabel | KeyDescription | KeyColor.

(** The value of a key in a payload, [None] when it has none. *)
Definition data_get (key : DataKey) (d : NodeData.t) : option string :=
  match key with
  | KeyLabel => Some (NodeData.label d)
  | KeyDescription => NodeData.description d
  | KeyColor => NodeData.color d
  end.


(** A store whose selection snapshot carries an id that no node has: the
    selected node was deleted through the canvas, which does not touch the
    selection. *)
Definition stale_selection_world : World :=
  {| store :=
       {| nodes := initialNodes;
          edges := initialEdges;
          selectedNode :=
            Some {| Node.id := "node-7";
                    Node.position := Position.mk (num_of_Z 0) (num_of_Z 0);
                    Node.data := {| NodeData.label := "Node 3";
                                    NodeData.description := Some "New node";
                                    NodeData.color := None |};
                    Node.type := Some "default";
                    Node.hidden := None |} |};
     localStorage := ∅; timers := []; console := []; alerts := [] |}.

(** [{ label }]: a partial payload with the label only. *)
Definition rename_to (label : string) : PartialNodeData.t :=
  {| PartialNodeData.label := Some label;
     PartialNodeData.description := None;
     PartialNodeData.color := None |}.



(** A platform whose clock advances every 400 readings and whose random
    generator always answers 0.5. *)
Definition half_jitter_platform : Platform :=
  {| Date_now := λ k, (1700000000000 + Z.of_nat (k / 400))%Z;
     Math_random := λ _, Num 5 1;
     Date_toISOString := "2023-11-14T22:13:20.000Z" |}.

(** A parsed value that has no [key] to read: [null], a primitive, an
    array, or an object without a member of that name. *)
Definition lacks_field (key : string) (value : JsVal) : Prop :=
  match value with
  | JObject members => lookup_member key members = None
  | _ => True
  end.

(** The world after a failed import: one console line and one alert. *)
Definition after_failed_import (error : Error) (w : World) : World :=
  {| store := store w;
     localStorage := localStorage w;
     timers := timers w;
     console := console w ++ [("Failed to import JSON:", error)];
     alerts := alerts w ++ ["Failed to import workflow. Please check the JSON format."] |}.

(** The world after a failed load: one console line. *)
Definition after_failed_load (error : Error) (w : World) : World :=
  {| store := store w;
     localStorage := localStorage w;
     timers := timers w;
     console := console w ++ [("Failed to load from localStorage:", error)];
     alerts := alerts w |}.

(** A world in which a broken value sits in the storage. *)
Definition broken_storage_world : World :=
  {| store := initialState;
     localStorage := {[ STORAGE_KEY := "{nodes: oops" ]};
     timers := []; console := []; alerts := [] |}.

(** A world with a selection, to see it cleared. *)
Definition selected_world : World :=
  {| store := {| nodes := initialNodes ++
                   [ {| Node.id := "node-1700000000000";
                        Node.position := Position.mk (Num 1234 1) (Num (-5) 0);
                        Node.data := {| NodeData.label := "Node 3";
                                        NodeData.description := None;
                                        NodeData.color := Some "#ff0000" |};
                        Node.type := Some "default";
                        Node.hidden := Some true |} ];
                 edges := initialEdges;
                 selectedNode := head initialNodes |};
     localStorage := ∅; timers := []; console := []; alerts := [] |}.

(** The platform's JSON gives a document back from its text. *)
Definition round_trips (JSON : JSONCodec) (document : JsVal) (indent : nat) : Prop :=
  JSON_parse JSON (JSON_stringify JSON document indent) = Some document.



(** ** Handlers of the components

    The event handlers of [App.tsx], [NodeEditor.tsx] and [Toolbar.tsx].
    A handler reads the selection and the nodes its component was last
    rendered with; the component re-renders on every store change, so that
    is the store at the time of the event. The answer of a [confirm] or
    [prompt] dialog is an input. *)

(** [nodes.find(n => n.id === id)] *)
Fixpoint find_by_id (id : string) (l : list Node.t) : option Node.t :=
  match l with
  | [] => None
  | n :: rest => if decide (Node.id n = id) then Some n else find_by_id id rest
  end.

(** [handleClick] of [CustomNode], for the node component of id [id]. *)
Definition CustomNode_handleClick (id : string) : Action unit :=
  let* s := get in
  match find_by_id id (nodes s) with
  | Some node => setSelectedNode (Some node)
  | None => ret tt
  end.


(** The two text fields of the editor, [useState('')] each. *)
Record EditorForm := mkEditorForm {
  form_label : string;
  form_description : string
}.

(** The effect of [NodeEditor] that runs when the selection changes:
    [setLabel(selectedNode.data.label || '')] and
    [setDescription(selectedNode.data.description || '')]. *)
Definition NodeEditor_sync (selected : option Node.t) (form : EditorForm) : EditorForm :=
  match selected with
  | Some node =>
      {| form_label := NodeData.label (Node.data node);
         form_description := default "" (NodeData.description (Node.data node)) |}
  | None => form
  end.

Definition NodeEditor_handleClose : Action unit := setSelectedNode None.

(** [{ label, description }] *)
Definition form_data (form : EditorForm) : PartialNodeData.t :=
  {| PartialNodeData.label := Some (form_label form);
     PartialNodeData.description := Some (Some (form_description form));
     PartialNodeData.color := None |}.

Definition NodeEditor_handleSave (form : EditorForm) : Action unit :=
  let* s := get in
  match selectedNode s with
  | Some selected => updateNode (Node.id selected) (form_data form)
  | None => ret tt
  end ;;;
  NodeEditor_handleClose.

(** [confirmed] is the answer of the dialog, asked only when a node is
    selected. *)
Definition NodeEditor_handleDelete (confirmed : bool) : Action unit :=
  let* s := get in
  match selectedNode s with
  | Some selected =>
      if confirmed then
        deleteNode (Node.id selected) ;;;
        NodeEditor_handleClose
      else ret tt
  | None => ret tt
  end.

(** [onChange] of the label field, after [setLabel]. *)
Definition NodeEditor_onLabelChange (value : string) : Action unit :=
  let* s := get in
  match selectedNode s with
  | Some selected =>
      updateNode (Node.id selected)
        {| PartialNodeData.label := Some value;
           PartialNodeData.description := None;
           PartialNodeData.color := None |}
  | None => ret tt
  end.

(** [onChange] of the description field, after [setDescription]. *)
Definition NodeEditor_onDescriptionChange (value : string) : Action unit :=
  let* s := get in
  match selectedNode s with
  | Some selected =>
      updateNode (Node.id selected)
        {| PartialNodeData.label := None;
           PartialNodeData.description := Some (Some value);
           PartialNodeData.color := None |}
  | None => ret tt
  end.

Section Toolbar.
(** [parseInt] of the platform: [None] is [NaN]. *)
Context (parseInt : string → option Z).

(** [answer] is what [prompt] returned, [None] when it was cancelled. *)
Definition Toolbar_handleGenerateBulk (env : Platform) (answer : option string)
    : Action unit :=
  match answer with
  | Some count =>
      if String.eqb count "" then ret tt
      else
        match parseInt count with
        | Some num =>
            if (0 <? num)%Z && (num <=? 10000)%Z
            then generateBulkNodes env (Z.to_nat num)
            else alert "Please enter a valid number between 1 and 10000"
        | None => alert "Please enter a valid number between 1 and 10000"
        end
  | None => ret tt
  end.
End Toolbar.


(** A reference [parseInt] for ASCII text without radix argument: leading
    white space, a sign, then hexadecimal digits behind [0x] or decimal
    digits; what follows the digits is ignored. *)
Module RefParseInt.

Definition is_space (c : ascii) : bool :=
  let n := nat_of_ascii c in
  (n =? 32) || ((9 <=? n) && (n <=? 13)).

Fixpoint skip_space (s : string) : string :=
  match s with
  | String c rest => if is_space c then skip_space rest else s
  | EmptyString => s
  end.

Definition digit_value (radix : nat) (c : ascii) : option nat :=
  match RefJSON.hex_value c with
  | Some d => if d <? radix then Some d else None
  | None => None
  end.

(** The value of the longest prefix of digits, [None] when it is empty. *)
Fixpoint digits (radix : nat) (s : string) (acc : option Z) : option Z :=
  match s with
  | String c rest =>
      match digit_value radix c with
      | Some d => digits radix rest (Some (default 0 acc * Z.of_nat radix + Z.of_nat d)%Z)
      | None => acc
      end
  | EmptyString => acc
  end.

Definition unsigned (s : string) : option Z :=
  match s with
  | String z (String x rest) =>
      if Ascii.eqb z "0" && (Ascii.eqb x "x" || Ascii.eqb x "X")
      then digits 16 rest None
      else digits 10 s None
  | _ => digits 10 s None
  end.

Definition parseInt (s : string) : option Z :=
  match skip_space s with
  | String c rest =>
      if Ascii.eqb c "-" then Z.opp <$> unsigned rest
      else if Ascii.eqb c "+" then unsigned rest
      else unsigned (String c rest)
  | EmptyString => None
  end.

End RefParseInt.

(** ** Sequences of store operations *)

Inductive StoreOp :=
| OpAddNode (env : Platform) (position : option Position.t)
| OpUpdateNode (nodeId : string) (data : PartialNodeData.t)
| OpDeleteNode (nodeId : string)
| OpSetSelectedNode (node : option Node.t)
| OpNodeClick (node : Node.t)
| OpSelectById (nodeId : string)
| OpToggleNodeVisibility (nodeId : string)
| OpClearFlow
| OpGenerateBulkNodes (env : Platform) (count : nat).

Definition run_op (op : StoreOp) : Action unit :=
  match op with
  | OpAddNode env position => addNode env position
  | OpUpdateNode nodeId data => updateNode nodeId data
  | OpDeleteNode nodeId => deleteNode nodeId
  | OpSetSelectedNode node => setSelectedNode node
  | OpNodeClick node => onNodeClick node
  | OpSelectById nodeId => CustomNode_handleClick nodeId
  | OpToggleNodeVisibility nodeId => toggleNodeVisibility nodeId
  | OpClearFlow => clearFlow
  | OpGenerateBulkNodes env count => generateBulkNodes env count
  end.

Fixpoint run_ops (ops : list StoreOp) : Action unit :=
  match ops with
  | [] => ret tt
  | op :: rest => run_op op ;;; run_ops rest
  end.

(** The operations that end with [setTimeout(..., 100)]. *)
Definition schedules_save (op : StoreOp) : bool :=
  match op with
  | OpSetSelectedNode _ | OpNodeClick _ | OpSelectById _ => false
  | _ => true
  end.

(** The operations that may select a node that is no entry of the
    collection. *)
Definition selects_freely (op : StoreOp) : bool :=
  match op with
  | OpSetSelectedNode (Some _) | OpNodeClick _ => true
  | _ => false
  end.



(** ** Vocabulary of the further properties *)


(** The selection snapshot shows the id and the data of an entry of the
    collection. *)
Definition selection_mirrors (s : FlowState) : Prop :=
  ∀ selected, selectedNode s = Some selected →
    ∃ node, node ∈ nodes s ∧
            Node.id node = Node.id selected ∧
            Node.data node = Node.data selected.


(** [{ ...{ ...d, ...p1 }, ...p2 }] as one partial payload. *)
Definition overlay (p1 p2 : PartialNodeData.t) : PartialNodeData.t :=
  {| PartialNodeData.label :=
       match PartialNodeData.label p2 with
       | Some v => Some v
       | None => PartialNodeData.label p1
       end;
     PartialNodeData.description :=
       match PartialNodeData.description p2 with
       | Some v => Some v
       | None => PartialNodeData.description p1
       end;
     PartialNodeData.color :=
       match PartialNodeData.color p2 with
       | Some v => Some v
       | None => PartialNodeData.color p1
       end |}.

(** [{}] *)
Definition empty_data : PartialNodeData.t :=
  {| PartialNodeData.label := None;
     PartialNodeData.description := None;
     PartialNodeData.color := None |}.

(** [value.key] that may be missing, without the throw on [null]. *)
Definition field (key : string) (value : JsVal) : option JsVal :=
  match value with
  | JObject members => lookup_member key members
  | _ => None
  end.


(** Where a node is and what it is: the fields no store operation
    rewrites. *)
Definition placement (node : Node.t) : string * Position.t * option string :=
  (Node.id node, Node.position node, Node.type node).

(** The clock reading an [addNode] call builds its id from. *)
Definition clock_of_call (call : Platform * option Position.t) : Z :=
  Date_now (fst call) 0.

(** What a rejected import caught: reading [nodes] of [null] throws a
    [TypeError], every other rejected value meets the [throw] of the
    code. *)
Definition import_error (data : JsVal) : Error :=
  match data with
  | JNull => TypeError
  | _ => PlainError "Invalid JSON format"
  end.

(** The world after a load that installed [ns] and [es]. *)
Definition after_load (ns : list Node.t) (es : list Edge.t) (w : World) : World :=
  {| store := {| nodes := ns; edges := es; selectedNode := None |};
     localStorage := localStorage w;
     timers := timers w;
     console := console w;
     alerts := alerts w |}.

(** The payload an entry of the selected id carries after [handleSave]:
    label and description of the form, the colour it had. *)
Definition saved_data (form : EditorForm) (d : NodeData.t) : NodeData.t :=
  {| NodeData.label := form_label form;
     NodeData.description := Some (form_description form);
     NodeData.color := NodeData.color d |}.

(** The world after the alert of [handleGenerateBulk]. *)
Definition after_invalid_count (w : World) : World :=
  {| store := store w;
     localStorage := localStorage w;
     timers := timers w;
     console := console w;
     alerts := alerts w ++ ["Please enter a valid number between 1 and 10000"] |}.






(** * Properties *)

(** ** What each operation computes *)

Lemma deleteNode_run nodeId w :
  deleteNode nodeId w =
  Ok tt (after_mutation
           {| nodes := filter (λ node, Node.id node ≠ nodeId) (nodes (store w));
              edges := filter (λ edge, Edge.source edge ≠ nodeId ∧ Edge.target edge ≠ nodeId)
                              (edges (store w));
              selectedNode :=
                match selectedNode (store w) with
                | Some selected =>
                    if decide (Node.id selected = nodeId) then None else Some selected
                | None => None
                end |} w).
Proof. reflexivity. Qed.

Lemma toggleNodeVisibility_run nodeId w :
  toggleNodeVisibility nodeId w =
  Ok tt (after_mutation
           {| nodes := (λ node, if decide (Node.id node = nodeId)
                                then with_toggled_hidden node else node)
                       <$> nodes (store w);
              edges := edges (store w);
              selectedNode := selectedNode (store w) |} w).
Proof. reflexivity. Qed.

Lemma addNode_run env position w :
  addNode env position w =
  Ok tt (after_mutation
           {| nodes := nodes (store w) ++
                [ {| Node.id := "node-" +:+ string_of_Z (Date_now env 0);
                     Node.position :=
                       default (Position.mk (num_mul (Math_random env 0) (num_of_Z 500))
                                            (num_mul (Math_random env 1) (num_of_Z 500)))
                               position;
                     Node.data :=
                       {| NodeData.label :=
                            "Node " +:+ string_of_nat (length (nodes (store w)) + 1);
                          NodeData.description := Some "New node";
                          NodeData.color := None |};
                     Node.type := Some "default";
                     Node.hidden := None |} ];
              edges := edges (store w);
              selectedNode := selectedNode (store w) |} w).
Proof. reflexivity. Qed.

Lemma updateNode_run nodeId data w :
  updateNode nodeId data w =
  Ok tt (after_mutation
           {| nodes := (λ node, if decide (Node.id node = nodeId)
                                then with_merged_data data node else node)
                       <$> nodes (store w);
              edges := edges (store w);
              selectedNode :=
                match selectedNode (store w) with
                | Some selected =>
                    if decide (Node.id selected = nodeId)
                    then Some (with_merged_data data selected)
                    else Some selected
                | None => None
                end |} w).
Proof.
  destruct w as [[ns es [selected|]] ls ts c a]; [|reflexivity].
  unfold updateNode, bind, get, set, setTimeout_save, after_mutation; simpl.
  destruct (decide (Node.id selected = nodeId)); reflexivity.
Qed.

Lemma clearFlow_run w :
  clearFlow w = Ok tt (after_mutation {| nodes := []; edges := []; selectedNode := None |} w).
Proof. reflexivity. Qed.

Lemma bulk_loop_spec env gridSize todo : ∀ i newNodes,
  bulk_loop env gridSize i todo newNodes =
  newNodes ++ (bulk_node env gridSize <$> seq i todo).
Proof.
  induction todo as [|todo IH]; intros i newNodes; simpl.
  - by rewrite app_nil_r.
  - by rewrite IH, <- app_assoc.
Qed.

Lemma generateBulkNodes_run env count w :
  generateBulkNodes env count w =
  Ok tt (after_mutation
           {| nodes := nodes (store w) ++
                       (bulk_node env (Math_ceil_sqrt count) <$> seq 0 count);
              edges := edges (store w);
              selectedNode := selectedNode (store w) |} w).
Proof.
  unfold generateBulkNodes, bind, get, set, setTimeout_save, after_mutation; simpl.
  by rewrite bulk_loop_spec.
Qed.

(** Mapping a function that only changes the nodes of one id is the
    identity when no node has that id. *)
Lemma fmap_on_absent_id (f : Node.t → Node.t) nodeId (l : list Node.t) :
  (∀ node, node ∈ l → Node.id node ≠ nodeId) →
  (λ node, if decide (Node.id node = nodeId) then f node else node) <$> l = l.
Proof.
  induction l as [|n l IH]; intros Habsent; [done|].
  rewrite fmap_cons, IH by (intros ? ?; apply Habsent; by right).
  destruct (decide (Node.id n = nodeId)) as [Heq|]; [|done].
  exfalso. by apply (Habsent n); [left|].
Qed.

Lemma filter_on_absent_id nodeId (l : list Node.t) :
  (∀ node, node ∈ l → Node.id node ≠ nodeId) →
  filter (λ node, Node.id node ≠ nodeId) l = l.
Proof.
  intros Habsent. induction l as [|n l IH]; [done|].
  rewrite filter_cons_True by (apply Habsent; by left).
  f_equal. apply IH. intros ? ?. apply Habsent. by right.
Qed.

(** ** The initial state *)

(** C10. When the module has been loaded and no operation, load or import
    has run, the store holds exactly two nodes, with ids 1 and 2 and labels
    Start Node and Process Node, exactly one edge e1-2 from 1 to 2 that is
    animated, and no selection. Sizes after an operation are therefore
    relative to that baseline: one [addNode] gives three nodes and
    [generateBulkNodes] of [count] gives [2 + count], while after
    [clearFlow] the same bulk generation gives [count]. *)
Theorem initial_state_is_the_two_node_baseline :
  store initialWorld = initialState ∧
  length (nodes initialState) = 2 ∧
  Node.id <$> nodes initialState = ["1"; "2"] ∧
  (λ node, NodeData.label (Node.data node)) <$> nodes initialState
    = ["Start Node"; "Process Node"] ∧
  edges initialState =
    [ {| Edge.id := "e1-2"; Edge.source := "1"; Edge.target := "2";
         Edge.animated := Some true |} ] ∧
  selectedNode initialState = None ∧
  (∀ env position, ∃ w',
     addNode env position initialWorld = Ok tt w' ∧ length (nodes (store w')) = 3) ∧
  (∀ env count, ∃ w',
     generateBulkNodes env count initialWorld = Ok tt w' ∧
     length (nodes (store w')) = 2 + count) ∧
  (∀ env count, ∃ w0 w',
     clearFlow initialWorld = Ok tt w0 ∧
     generateBulkNodes env count w0 = Ok tt w' ∧
     length (nodes (store w')) = count).
Proof.
  repeat split.
  - intros env position. eexists. split; [apply addNode_run|reflexivity].
  - intros env count. eexists. split; [apply generateBulkNodes_run|].
    simpl. by rewrite length_fmap, length_seq.
  - intros env count. do 2 eexists. split; [apply clearFlow_run|].
    split; [apply generateBulkNodes_run|].
    simpl. by rewrite length_fmap, length_seq.
Qed.

(** ** Deleting a node *)

(** C1. [deleteNode(id)] keeps, in their order, exactly the nodes whose id
    is not [id] and exactly the edges of which neither end is [id]; the
    selection becomes null exactly when it was null or the selected node had
    that id, and is otherwise kept. When no node has the id the node
    collection is unchanged, while the edges are filtered and the selection
    is checked all the same. *)
Theorem deleteNode_removes_node_and_incident_edges (nodeId : string) (w : World) :
  ∃ w', deleteNode nodeId w = Ok tt w' ∧
    nodes (store w') = filter (λ node, Node.id node ≠ nodeId) (nodes (store w)) ∧
    (∀ node, node ∈ nodes (store w') ↔ node ∈ nodes (store w) ∧ Node.id node ≠ nodeId) ∧
    nodes (store w') `sublist_of` nodes (store w) ∧
    edges (store w') =
      filter (λ edge, Edge.source edge ≠ nodeId ∧ Edge.target edge ≠ nodeId)
             (edges (store w)) ∧
    (∀ edge, edge ∈ edges (store w') ↔
       edge ∈ edges (store w) ∧ ¬ (Edge.source edge = nodeId ∨ Edge.target edge = nodeId)) ∧
    edges (store w') `sublist_of` edges (store w) ∧
    (selectedNode (store w') = None ↔
       selectedNode (store w) = None ∨
       ∃ selected, selectedNode (store w) = Some selected ∧ Node.id selected = nodeId) ∧
    (selectedNode (store w') = None ∨ selectedNode (store w') = selectedNode (store w)) ∧
    ((∀ node, node ∈ nodes (store w) → Node.id node ≠ nodeId) →
       nodes (store w') = nodes (store w)) ∧
    localStorage w' = localStorage w.
Proof.
  eexists. split; [apply deleteNode_run|]. simpl.
  split; [done|]. split.
  { intros node. rewrite list_elem_of_filter. tauto. }
  split; [apply sublist_filter|]. split; [done|]. split.
  { intros edge. rewrite list_elem_of_filter. tauto. }
  split; [apply sublist_filter|]. split.
  { destruct (selectedNode (store w)) as [selected|]; [|by split; [left|]].
    destruct (decide (Node.id selected = nodeId)) as [Heq|Hne].
    - split; [|done]. intros _. right. by exists selected.
    - split; [done|]. intros [?|(s & [= <-] & ?)]; done. }
  split.
  { destruct (selectedNode (store w)) as [selected|]; [|by left].
    destruct (decide (Node.id selected = nodeId)); [by left|by right]. }
  split; [apply filter_on_absent_id|done].
Qed.

Lemma initialNodes_lack id :
  id ≠ "1" → id ≠ "2" → ∀ node, node ∈ initialNodes → Node.id node ≠ id.
Proof.
  intros H1 H2 node Hin. unfold initialNodes in Hin.
  rewrite !elem_of_cons, elem_of_nil in Hin.
  destruct Hin as [->|[->|[]]]; simpl; congruence.
Qed.

Lemma deleteNode_witness :
  ∃ w', deleteNode "node-9" initialWorld = Ok tt w' ∧
        nodes (store w') = nodes (store initialWorld) ∧
        edges (store w') = edges (store initialWorld) ∧
        selectedNode (store w') = None.
Proof.
  destruct (deleteNode_removes_node_and_incident_edges "node-9" initialWorld)
    as (w' & Hrun & _ & _ & _ & Hedges & _ & _ & Hsel & _ & Habsent & _).
  exists w'. split; [exact Hrun|]. split.
  - apply Habsent. by apply initialNodes_lack.
  - split; [by rewrite Hedges|]. apply Hsel. by left.
Defined.

Example deleteNode_on_initial_state :
  ∃ w', deleteNode "1" initialWorld = Ok tt w' ∧
        Node.id <$> nodes (store w') = ["2"] ∧
        edges (store w') = [] ∧
        timers w' = [100].
Proof. eexists. split; [apply deleteNode_run|]. by vm_compute. Qed.

(** ** Toggling visibility *)

(** C9. [toggleNodeVisibility(id)] negates the hidden flag (absent counts
    as false) of every node whose id is [id] and keeps that node's id,
    position, type and data; every other node, the edges and the selection
    snapshot are unchanged, so the snapshot of a selected node is not
    refreshed. When no node has the id the store is unchanged. *)
Theorem toggleNodeVisibility_flips_only_hidden (nodeId : string) (w : World) :
  ∃ w', toggleNodeVisibility nodeId w = Ok tt w' ∧
    length (nodes (store w')) = length (nodes (store w)) ∧
    (∀ i node, nodes (store w) !! i = Some node →
       ∃ node', nodes (store w') !! i = Some node' ∧
         Node.id node' = Node.id node ∧
         Node.position node' = Node.position node ∧
         Node.type node' = Node.type node ∧
         Node.data node' = Node.data node ∧
         (Node.id node = nodeId →
            Node.hidden node' = Some (negb (is_hidden node)) ∧
            is_hidden node' = negb (is_hidden node)) ∧
         (Node.id node ≠ nodeId → node' = node)) ∧
    edges (store w') = edges (store w) ∧
    selectedNode (store w') = selectedNode (store w) ∧
    ((∀ node, node ∈ nodes (store w) → Node.id node ≠ nodeId) → store w' = store w) ∧
    localStorage w' = localStorage w.
Proof.
  eexists. split; [apply toggleNodeVisibility_run|]. simpl.
  split; [by rewrite length_fmap|]. split.
  { intros i node Hi. rewrite list_lookup_fmap, Hi. simpl.
    eexists. split; [done|].
    destruct (decide (Node.id node = nodeId)); naive_solver. }
  split; [done|]. split; [done|]. split; [|done].
  intros Habsent. rewrite fmap_on_absent_id by done. by destruct (store w).
Qed.

Lemma toggleNodeVisibility_witness :
  (∃ w', toggleNodeVisibility "node-9" initialWorld = Ok tt w' ∧
         store w' = store initialWorld) ∧
  (∃ w' node', toggleNodeVisibility "2" initialWorld = Ok tt w' ∧
               nodes (store w') !! 1 = Some node' ∧
               Node.hidden node' = Some true ∧
               nodes (store w') !! 0 = nodes (store initialWorld) !! 0).
Proof.
  split.
  - destruct (toggleNodeVisibility_flips_only_hidden "node-9" initialWorld)
      as (w' & Hrun & _ & _ & _ & _ & Habsent & _).
    exists w'. split; [exact Hrun|]. apply Habsent. by apply initialNodes_lack.
  - destruct (toggleNodeVisibility_flips_only_hidden "2" initialWorld)
      as (w' & Hrun & _ & Hnodes & _).
    destruct (Hnodes 1 _ eq_refl) as (node' & Hlookup & _ & _ & _ & _ & Hflip & _).
    destruct (Hnodes 0 _ eq_refl) as (other & Hother & _ & _ & _ & _ & _ & Hsame).
    exists w', node'. split; [exact Hrun|]. split; [exact Hlookup|].
    split; [by destruct (Hflip eq_refl)|]. by rewrite Hother, Hsame.
Defined.

Example toggleNodeVisibility_twice_on_initial_state :
  ∃ w1 w2,
    toggleNodeVisibility "1" initialWorld = Ok tt w1 ∧
    Node.hidden <$> nodes (store w1) = [Some true; None] ∧
    toggleNodeVisibility "1" w1 = Ok tt w2 ∧
    Node.hidden <$> nodes (store w2) = [Some false; None].
Proof.
  eexists _, _. split; [apply toggleNodeVisibility_run|].
  split; [by vm_compute|]. split; [apply toggleNodeVisibility_run|]. by vm_compute.
Qed.

(** ** Adding nodes *)

Lemma addNode_calls_run calls : ∀ w,
  ∃ w' added,
    addNode_calls calls w = Ok tt w' ∧
    nodes (store w') = nodes (store w) ++ added ∧
    length added = length calls ∧
    (∀ k node, added !! k = Some node →
       NodeData.label (Node.data node)
       = "Node " +:+ string_of_nat (length (nodes (store w)) + k + 1)).
Proof.
  induction calls as [|[env position] calls IH]; intros w.
  - exists w, []. split; [done|]. split; [by rewrite app_nil_r|]. split; [done|].
    intros k node Hk. by rewrite lookup_nil in Hk.
  - simpl. unfold bind at 1. rewrite addNode_run.
    match goal with |- context [after_mutation ?s w] =>
      destruct (IH (after_mutation s w)) as (w' & added & Hrun & Hnodes & Hlen & Hlabel)
    end.
    simpl in Hnodes, Hlabel. rewrite length_app in Hlabel. simpl in Hlabel.
    eexists w', (_ :: added). split; [exact Hrun|].
    split; [by rewrite Hnodes, <- app_assoc|]. split; [by rewrite <- Hlen|].
    intros [|k] node Hk; simpl in Hk.
    + injection Hk as <-. simpl. by rewrite Nat.add_0_r.
    + rewrite (Hlabel k node Hk). do 2 f_equal. lia.
Qed.

(** C8. One [addNode] call appends one node at the end of the node
    collection: the length grows by exactly one, the label of the new node
    is Node followed by the count before the call plus one, and the nodes
    that were there keep their places and values. Along any sequence of
    calls the length therefore grows by the number of calls, and the [k]-th
    added node is labelled with the count before the sequence plus
    [k + 1]. *)
Theorem addNode_appends_one_node_per_call :
  (∀ env position w, ∃ w' newNode,
     addNode env position w = Ok tt w' ∧
     nodes (store w') = nodes (store w) ++ [newNode] ∧
     length (nodes (store w')) = length (nodes (store w)) + 1 ∧
     NodeData.label (Node.data newNode)
       = "Node " +:+ string_of_nat (length (nodes (store w)) + 1) ∧
     (∀ i node, nodes (store w) !! i = Some node → nodes (store w') !! i = Some node) ∧
     edges (store w') = edges (store w) ∧
     selectedNode (store w') = selectedNode (store w)) ∧
  (∀ calls w, ∃ w' added,
     addNode_calls calls w = Ok tt w' ∧
     nodes (store w') = nodes (store w) ++ added ∧
     length (nodes (store w')) = length (nodes (store w)) + length calls ∧
     (∀ k node, added !! k = Some node →
        NodeData.label (Node.data node)
        = "Node " +:+ string_of_nat (length (nodes (store w)) + k + 1))).
Proof.
  split.
  - intros env position w. do 2 eexists. split; [apply addNode_run|]. simpl.
    split; [done|]. split; [by rewrite length_app|]. split; [done|].
    split; [|done]. intros i node Hi. by apply lookup_app_l_Some.
  - intros calls w.
    destruct (addNode_calls_run calls w) as (w' & added & Hrun & Hnodes & Hlen & Hlabel).
    exists w', added. split; [done|]. split; [done|].
    split; [by rewrite Hnodes, length_app, Hlen|done].
Qed.

Lemma addNode_witness :
  ∃ w', addNode half_jitter_platform None initialWorld = Ok tt w' ∧
        length (nodes (store w')) = 3 ∧
        nodes (store w') !! 0 = nodes (store initialWorld) !! 0 ∧
        nodes (store w') !! 1 = nodes (store initialWorld) !! 1.
Proof.
  destruct (proj1 addNode_appends_one_node_per_call half_jitter_platform None initialWorld)
    as (w' & newNode & Hrun & _ & Hlen & _ & Hkeep & _).
  exists w'. split; [exact Hrun|]. split; [exact Hlen|].
  split; by apply Hkeep.
Defined.

Example addNode_label_on_initial_state env position :
  ∃ w', addNode env position initialWorld = Ok tt w' ∧
        (λ node, NodeData.label (Node.data node)) <$> nodes (store w')
        = ["Start Node"; "Process Node"; "Node 3"].
Proof. eexists. split; [apply addNode_run|reflexivity]. Qed.

(** ** Updating node data *)

Lemma data_get_ext d1 d2 : (∀ key, data_get key d1 = data_get key d2) → d1 = d2.
Proof.
  intros H. destruct d1 as [l1 de1 c1], d2 as [l2 de2 c2].
  pose proof (H KeyLabel) as Hl. pose proof (H KeyDescription) as Hd.
  pose proof (H KeyColor) as Hc. simpl in *. congruence.
Qed.




Example updateNode_on_selected_node :
  ∃ w', updateNode "1" (rename_to "Entry") selected_world = Ok tt w' ∧
        (λ node, NodeData.label (Node.data node)) <$> nodes (store w')
          = ["Entry"; "Process Node"; "Node 3"] ∧
        (λ node, NodeData.label (Node.data node)) <$> selectedNode (store w')
          = Some "Entry" ∧
        selectedNode (store w') = head (nodes (store w')).
Proof. eexists. split; [apply updateNode_run|]. by vm_compute. Qed.

(** C5, as stated, fails: no node of [stale_selection_world] has the id
    node-7, yet [updateNode] on that id rewrites the selection snapshot. *)
Lemma updateNode_absent_id_rewrites_selection :
  (∀ node, node ∈ nodes (store stale_selection_world) → Node.id node ≠ "node-7") ∧
  ∃ w', updateNode "node-7" (rename_to "Renamed") stale_selection_world = Ok tt w' ∧
        nodes (store w') = nodes (store stale_selection_world) ∧
        (NodeData.label ∘ Node.data) <$> selectedNode (store stale_selection_world)
          = Some "Node 3" ∧
        (NodeData.label ∘ Node.data) <$> selectedNode (store w') = Some "Renamed" ∧
        selectedNode (store w') ≠ selectedNode (store stale_selection_world) ∧
        store w' ≠ store stale_selection_world.
Proof.
  split.
  - intros node Hin. simpl in Hin. unfold initialNodes in Hin.
    rewrite !elem_of_cons, elem_of_nil in Hin.
    destruct Hin as [->|[->|[]]]; done.
  - eexists. split; [apply updateNode_run|]. vm_compute. repeat split; congruence.
Qed.

(** C5, amended. When no node has the id, [updateNode(id, partialData)]
    leaves the node collection and the edge collection unchanged; the
    selection snapshot is unchanged when it is null or carries another id,
    and gets [partialData] merged into its data when it carries that id. *)
Theorem updateNode_absent_id_only_refreshes_selection
    (nodeId : string) (data : PartialNodeData.t) (w : World) :
  (∀ node, node ∈ nodes (store w) → Node.id node ≠ nodeId) →
  ∃ w', updateNode nodeId data w = Ok tt w' ∧
    nodes (store w') = nodes (store w) ∧
    edges (store w') = edges (store w) ∧
    selectedNode (store w') =
      match selectedNode (store w) with
      | Some selected =>
          if decide (Node.id selected = nodeId)
          then Some (with_merged_data data selected)
          else Some selected
      | None => None
      end ∧
    ((∀ selected, selectedNode (store w) = Some selected → Node.id selected ≠ nodeId) →
       store w' = store w).
Proof.
  intros Habsent. eexists. split; [apply updateNode_run|]. simpl.
  rewrite fmap_on_absent_id by done. repeat split.
  intros Hsel. destruct (store w) as [ns es [selected|]]; simpl in *; [|done].
  by rewrite decide_False by (by apply Hsel).
Qed.

Lemma updateNode_absent_id_witness :
  ∃ w', updateNode "missing" (rename_to "Renamed") initialWorld = Ok tt w' ∧
        store w' = store initialWorld.
Proof.
  destruct (updateNode_absent_id_only_refreshes_selection
              "missing" (rename_to "Renamed") initialWorld) as (w' & Hrun & _ & _ & _ & Hsame).
  - intros node Hin. simpl in Hin. unfold initialNodes in Hin.
    rewrite !elem_of_cons, elem_of_nil in Hin.
    destruct Hin as [->|[->|[]]]; done.
  - exists w'. split; [exact Hrun|]. apply Hsame. intros selected Hsel. discriminate Hsel.
Defined.

(** ** Arithmetic on numbers *)










(** ** Decimal texts and generated ids *)






Example string_of_nat_examples :
  string_of_nat 0 = "0" ∧ string_of_nat 7 = "7" ∧ string_of_nat 1000 = "1000" ∧
  string_of_Z 1700000000000 = "1700000000000" ∧ string_of_Z (-5) = "-5".
Proof. repeat split. Qed.

Lemma string_app_assoc (a b c : string) : (a +:+ b) +:+ c = a +:+ (b +:+ c).
Proof.
  induction a as [|ch a IH]; [done|].
  change (String ch ((a +:+ b) +:+ c) = String ch (a +:+ (b +:+ c))).
  by rewrite IH.
Qed.


(** ** Bulk generation *)



Example bulk_grid_of_five env :
  Math_ceil_sqrt 5 = 3 ∧
  (λ n, (mant (Position.x (Node.position n)), mant (Position.y (Node.position n))))
    <$> (bulk_node {| Date_now := Date_now env; Math_random := λ _, num_of_Z 0;
                      Date_toISOString := Date_toISOString env |} 3 <$> seq 0 5)
  = [(0, 0); (200, 0); (400, 0); (0, 200); (200, 200)]%Z.
Proof. split; reflexivity. Qed.

(** ** The typed view inverts the encoding *)

Lemma as_position_to_js p : as_position (position_to_js p) = Some p.
Proof. by destruct p. Qed.

Lemma as_data_to_js d : as_data (data_to_js d) = Some d.
Proof. by destruct d as [l [de|] [c|]]. Qed.

Lemma as_node_to_js n : as_node (node_to_js n) = Some n.
Proof. by destruct n as [i [x y] [l [de|] [c|]] [t|] [h|]]. Qed.

Lemma as_edge_to_js e : as_edge (edge_to_js e) = Some e.
Proof. by destruct e as [i s t [a|]]. Qed.

Lemma as_list_fmap {A} (cast : JsVal → option A) (inj : A → JsVal) (l : list A) :
  (∀ a, cast (inj a) = Some a) → as_list cast (inj <$> l) = Some l.
Proof.
  intros Hinv. induction l as [|a l IH]; [done|].
  rewrite fmap_cons. simpl. by rewrite Hinv, IH.
Qed.

Lemma as_nodes_to_js l : as_nodes (Some (nodes_to_js l)) = Some l.
Proof. apply as_list_fmap, as_node_to_js. Qed.

Lemma as_edges_to_js l : as_edges (Some (edges_to_js l)) = Some l.
Proof. apply as_list_fmap, as_edge_to_js. Qed.

Section PersistenceProperties.
Context (JSON : JSONCodec).

Lemma importFromJSON_unparseable text w :
  JSON_parse JSON text = None →
  importFromJSON JSON text w = Ok tt (after_failed_import SyntaxError w).
Proof.
  intros Hparse. unfold importFromJSON, try_catch, bind, parse_or_throw.
  by rewrite Hparse.
Qed.

Lemma importFromJSON_lacking text data w :
  JSON_parse JSON text = Some data →
  lacks_field "nodes" data ∨ lacks_field "edges" data →
  ∃ error, importFromJSON JSON text w = Ok tt (after_failed_import error w).
Proof.
  intros Hparse Hlack.
  unfold importFromJSON, try_catch, bind, parse_or_throw. rewrite Hparse.
  destruct data as [|b|n|s|items|members]; simpl;
    try (by eexists; reflexivity).
  destruct (truthy (lookup_member "nodes" members)) eqn:Hnodes;
    [|by eexists; reflexivity].
  simpl.
  destruct (truthy (lookup_member "edges" members)) eqn:Hedges;
    [|by eexists; reflexivity].
  exfalso. simpl in Hlack. destruct Hlack as [Hl|Hl]; rewrite Hl in *; done.
Qed.

Lemma loadFromLocalStorage_unparseable saved w :
  localStorage w !! STORAGE_KEY = Some saved →
  JSON_parse JSON saved = None →
  loadFromLocalStorage JSON w = Ok tt (after_failed_load SyntaxError w) ∨
  loadFromLocalStorage JSON w = Ok tt w.
Proof.
  intros Hsaved Hparse.
  unfold loadFromLocalStorage, try_catch, bind, localStorage_getItem, parse_or_throw.
  rewrite Hsaved. destruct (String.eqb saved ""); [by right|].
  rewrite Hparse. by left.
Qed.


Lemma importFromJSON_document text members w :
  JSON_parse JSON text = Some (JObject members) →
  ∀ ns es,
    lookup_member "nodes" members = Some (nodes_to_js ns) →
    lookup_member "edges" members = Some (edges_to_js es) →
    importFromJSON JSON text w =
    Ok tt (after_mutation {| nodes := ns; edges := es; selectedNode := None |} w).
Proof.
  intros Hparse ns es Hnodes Hedges.
  unfold importFromJSON, try_catch, bind, parse_or_throw. rewrite Hparse.
  simpl. rewrite Hnodes. simpl. rewrite Hedges. simpl.
  unfold set_parsed. by rewrite as_nodes_to_js, as_edges_to_js.
Qed.


End PersistenceProperties.

(** ** Parse errors *)

(** C3. Whatever the platform's JSON is: when the imported text does not
    parse, or parses to a value without a field [nodes] or without a field
    [edges], [importFromJSON] returns normally, leaves nodes, edges,
    selection, the stored value and the pending timers as they were, and
    the only trace is one console line and one alert. When the value
    stored under the key does not parse, [loadFromLocalStorage] returns
    normally and leaves the whole state as it was, with at most one
    console line. *)
Theorem parse_errors_are_contained (JSON : JSONCodec) (w : World) :
  (∀ text,
     (JSON_parse JSON text = None ∨
      ∃ data, JSON_parse JSON text = Some data ∧
              (lacks_field "nodes" data ∨ lacks_field "edges" data)) →
     ∃ error w',
       importFromJSON JSON text w = Ok tt w' ∧
       w' = after_failed_import error w ∧
       store w' = store w ∧
       localStorage w' = localStorage w ∧
       timers w' = timers w ∧
       alerts w' =
         alerts w ++ ["Failed to import workflow. Please check the JSON format."]) ∧
  (∀ saved,
     localStorage w !! STORAGE_KEY = Some saved →
     JSON_parse JSON saved = None →
     ∃ w',
       loadFromLocalStorage JSON w = Ok tt w' ∧
       store w' = store w ∧
       localStorage w' = localStorage w ∧
       timers w' = timers w ∧
       alerts w' = alerts w ∧
       (saved ≠ "" → w' = after_failed_load SyntaxError w)).
Proof.
  split.
  - intros text [Hparse|(data & Hparse & Hlack)].
    + exists SyntaxError, (after_failed_import SyntaxError w).
      by rewrite importFromJSON_unparseable.
    + destruct (importFromJSON_lacking JSON text data w Hparse Hlack) as [error Hrun].
      exists error, (after_failed_import error w). by rewrite Hrun.
  - intros saved Hsaved Hparse.
    unfold loadFromLocalStorage, try_catch, bind, localStorage_getItem, parse_or_throw.
    rewrite Hsaved. destruct (String.eqb_spec saved "") as [->|Hne].
    + by exists w.
    + rewrite Hparse. by exists (after_failed_load SyntaxError w).
Qed.

Lemma parse_errors_witness :
  importFromJSON RefJSON.codec "invalid json" broken_storage_world
    = Ok tt (after_failed_import SyntaxError broken_storage_world) ∧
  (∃ error, importFromJSON RefJSON.codec "{ }" broken_storage_world
    = Ok tt (after_failed_import error broken_storage_world)) ∧
  loadFromLocalStorage RefJSON.codec broken_storage_world
    = Ok tt (after_failed_load SyntaxError broken_storage_world).
Proof.
  destruct (parse_errors_are_contained RefJSON.codec broken_storage_world)
    as [Himport Hload].
  split; [|split].
  - destruct (Himport "invalid json") as (error & w' & Hrun & -> & _).
    + left. vm_compute. reflexivity.
    + rewrite Hrun. rewrite importFromJSON_unparseable in Hrun by (vm_compute; reflexivity).
      symmetry. exact Hrun.
  - destruct (Himport "{ }") as (error & w' & Hrun & -> & _).
    + right. exists (JObject []). split; [vm_compute; reflexivity|]. by left.
    + by exists error.
  - destruct (Hload "{nodes: oops") as (w' & Hrun & _ & _ & _ & _ & Hw').
    + reflexivity.
    + vm_compute. reflexivity.
    + rewrite Hrun. f_equal. by apply Hw'.
Defined.

(** ** The reference codec gives every value back

    [RefJSON.parse (RefJSON.stringify v indent) = Some v] for every value
    and every indentation: string literals, numbers, then the structure. *)
Module RefJSONFacts.
Import RefJSON.

Lemma string_app_nil_r (s : string) : s +:+ "" = s.
Proof.
  induction s as [|c s IH]; [done|].
  change (String c (s +:+ "") = String c s). by rewrite IH.
Qed.

Lemma string_app_cons c (a b : string) : String c a +:+ b = String c (a +:+ b).
Proof. reflexivity. Qed.

(** escapes *)
Lemma parse_escape_char c tail :
  parse_string_body (escape_char c +:+ tail) =
  match parse_string_body tail with
  | Some (body, after) => Some (String c body, after)
  | None => None
  end.
Proof.
  destruct c as [[] [] [] [] [] [] [] []]; reflexivity.
Qed.

Lemma parse_string_body_escape s rest :
  parse_string_body (escape s +:+ String QUOTE rest) = Some (s, rest).
Proof.
  induction s as [|c s IH]; [reflexivity|].
  change (escape (String c s)) with (escape_char c +:+ escape s).
  by rewrite string_app_assoc, parse_escape_char, IH.
Qed.

Lemma span_digits_uint u tail :
  digits_end tail = true →
  span_digits (NilEmpty.string_of_uint u +:+ tail) = (NilEmpty.string_of_uint u, tail).
Proof.
  intros Hend. induction u; simpl;
    try (change (String ?c ?a +:+ tail) with (String c (a +:+ tail)); simpl; by rewrite IHu).
  destruct tail as [|c tail]; [done|]. simpl in *.
  by destruct (is_digit c).
Qed.

(** The decimal text of a non-negative integer: its digits, without a
    leading zero unless it is 0. *)
Lemma string_of_Z_nonneg z :
  (0 ≤ z)%Z →
  ∃ u, string_of_Z z = NilEmpty.string_of_uint u ∧ Z.of_uint u = z ∧
       ∃ d more, NilEmpty.string_of_uint u = String d more ∧
                 (Ascii.eqb d "0" && negb (String.eqb more "") = false) ∧
                 is_digit d = true.
Proof.
  intros Hz. unfold string_of_Z.
  pose proof (DecimalZ.of_to z) as Hof. pose proof (DecimalZ.to_of (Z.to_int z)) as Hto.
  rewrite Hof in Hto.
  destruct z as [|p|p]; [| |lia].
  - exists (Decimal.D0 Decimal.Nil). split; [done|]. split; [done|]. by exists "0"%char, "".
  - simpl in *. exists (Pos.to_uint p). 
    set (u := Pos.to_uint p) in *.
    injection Hto as Hto. unfold Decimal.unorm in Hto.
    pose proof (nzhead_nonzero u) as Hnz.
    destruct (Decimal.nzhead u) eqn:Hhead; subst u.
    all: try (rewrite Hto; split; [done|]; split; [by rewrite <- Hto|]; by eexists _, _).
    by destruct (Hnz u0).
Qed.

Lemma digits_value_uint u : digits_value (NilEmpty.string_of_uint u) = Some (Z.of_uint u).
Proof. unfold digits_value. by rewrite NilEmpty.usu. Qed.

Lemma number_end_fraction_end s : number_end s = true → fraction_end s = true.
Proof.
  destruct s as [|c s]; [done|]. simpl.
  by destruct (is_digit c), (Ascii.eqb c ".").
Qed.

Lemma fraction_end_digits_end s : fraction_end s = true → digits_end s = true.
Proof. destruct s as [|c s]; [done|]. simpl. by destruct (is_digit c). Qed.

Lemma parse_fraction_none s : fraction_end s = true → parse_fraction s = Some ("", s).
Proof.
  destruct s as [|c s]; [done|]. simpl.
  destruct (Ascii.eqb c "."); [|done]. by rewrite andb_false_r.
Qed.

Lemma parse_exponent_none s : number_end s = true → parse_exponent s = Some (0%Z, s).
Proof.
  destruct s as [|c s]; [done|]. simpl.
  destruct (Ascii.eqb c "e"), (Ascii.eqb c "E"); simpl; rewrite ?andb_false_r; done.
Qed.

Lemma parse_exponent_print k rest :
  digits_end rest = true →
  parse_exponent ("e-" +:+ string_of_Z (Z.of_nat k) +:+ rest) = Some ((- Z.of_nat k)%Z, rest).
Proof.
  intros Hend.
  destruct (string_of_Z_nonneg (Z.of_nat k)) as (u & -> & Hu & d & more & Hd & _); [lia|].
  change (parse_exponent (String "e" (String "-" (NilEmpty.string_of_uint u +:+ rest)))
          = Some ((- Z.of_nat k)%Z, rest)).
  cbn -[span_digits digits_value]. rewrite span_digits_uint by done.
  rewrite Hd at 1. cbn -[digits_value]. by rewrite digits_value_uint, Hu.
Qed.

Lemma parse_magnitude_print negative z tail e rest :
  (0 ≤ z)%Z →
  fraction_end tail = true →
  parse_exponent tail = Some (e, rest) →
  (e ≤ 0)%Z →
  parse_magnitude negative (string_of_Z z +:+ tail)
  = Some (Num (if negative then (- z)%Z else z) (Z.to_nat (- e)), rest).
Proof.
  intros Hz Htail Hexp He.
  destruct (string_of_Z_nonneg z Hz) as (u & -> & Hu & d & more & Hd & Hlead & _).
  unfold parse_magnitude. rewrite span_digits_uint by by apply fraction_end_digits_end.
  rewrite Hd at 1. rewrite Hlead. rewrite parse_fraction_none by done.
  rewrite string_app_nil_r, digits_value_uint, Hexp, Hu. cbn [String.length].
  rewrite Z.sub_0_r.
  destruct (Z.leb_spec 0 e) as [Hle|Hlt].
  - assert (e = 0%Z) as -> by lia. simpl. by rewrite Z.mul_1_r.
  - done.
Qed.

Lemma parse_number_print n rest :
  number_end rest = true →
  parse_number (print_number n +:+ rest) = Some (n, rest).
Proof.
  intros Hend. destruct n as [m s]. unfold print_number. cbn [mant scale].
  rewrite string_app_assoc.
  set (tail := _ +:+ rest).
  assert (Htail : fraction_end tail = true ∧
                  parse_exponent tail = Some ((- Z.of_nat s)%Z, rest)).
  { subst tail. destruct s as [|k].
    - split; [by apply number_end_fraction_end|]. by apply parse_exponent_none.
    - rewrite string_app_assoc. split; [done|].
      apply parse_exponent_print. apply fraction_end_digits_end.
      by apply number_end_fraction_end. }
  destruct Htail as [Hfrac Hexp].
  assert (Hscale : Z.to_nat (- - Z.of_nat s) = s) by lia.
  destruct (Z.le_gt_cases 0 m) as [Hm|Hm].
  - pose proof (parse_magnitude_print false m tail _ rest Hm Hfrac Hexp) as Hmag.
    rewrite Hscale in Hmag.
    destruct (string_of_Z_nonneg m Hm) as (u & Hu & _ & d & more & Hd & _ & Hdigit).
    rewrite Hu, Hd in *.
    change (String d more +:+ tail) with (String d (more +:+ tail)) in *.
    unfold parse_number.
    destruct (Ascii.eqb d "-") eqn:Hdash.
    { apply Ascii.eqb_eq in Hdash. by subst d. }
    apply Hmag. lia.
  - destruct m as [|p|p]; [lia..|].
    change (string_of_Z (Z.neg p)) with (String "-" (string_of_Z (Z.pos p))).
    change (parse_magnitude true (string_of_Z (Z.pos p) +:+ tail)
            = Some (Num (Z.neg p) s, rest)).
    rewrite (parse_magnitude_print true (Z.pos p) tail _ rest) by (done || lia).
    by rewrite Hscale.
Qed.

Lemma skip_ws_lead lead s : all_ws lead = true → skip_ws (lead +:+ s) = skip_ws s.
Proof.
  induction lead as [|c lead IH]; [done|]. simpl. intros [Hc Hlead]%andb_true_iff.
  change (String c lead +:+ s) with (String c (lead +:+ s)). simpl.
  rewrite Hc. by apply IH.
Qed.

Lemma all_ws_spaces k : all_ws (spaces k) = true.
Proof. induction k; [done|]. simpl. done. Qed.

Lemma all_ws_break indent level : all_ws (break indent level) = true.
Proof. destruct indent; [done|]. simpl. apply all_ws_spaces. Qed.

Lemma skip_ws_break indent level s : skip_ws (break indent level +:+ s) = skip_ws s.
Proof. apply skip_ws_lead, all_ws_break. Qed.

Lemma number_head_facts c :
  number_head c = true →
  is_ws c = false ∧ Ascii.eqb c "n" = false ∧ Ascii.eqb c "t" = false ∧
  Ascii.eqb c "f" = false ∧ Ascii.eqb c QUOTE = false ∧ Ascii.eqb c "[" = false ∧
  Ascii.eqb c "{" = false ∧ Ascii.eqb "]" c = false.
Proof.
  destruct c as [[] [] [] [] [] [] [] []]; intros H; try discriminate H; done.
Qed.

Lemma print_number_head n :
  ∃ c s, print_number n = String c s ∧ number_head c = true.
Proof.
  destruct n as [m k]. unfold print_number. cbn [mant scale].
  destruct (Z.le_gt_cases 0 m) as [Hm|Hm].
  - destruct (string_of_Z_nonneg m Hm) as (u & -> & _ & d & more & -> & _ & Hd).
    eexists d, _. split; [reflexivity|]. unfold number_head. by rewrite Hd.
  - destruct m as [|p|p]; [lia..|].
    change (string_of_Z (Z.neg p)) with (String "-" (string_of_Z (Z.pos p))).
    by eexists _, _.
Qed.

(** The first character of a printed value is no white space and does not
    close an array. *)
Lemma print_head indent level v :
  ∃ c s, print indent level v = String c s ∧ is_ws c = false ∧ Ascii.eqb "]" c = false.
Proof.
  destruct v as [|[]|n|str|[|x xs]|[|[k x] xs]]; try (by eexists _, _).
  destruct (print_number_head n) as (c & s & Hs & Hc).
  exists c, s. split; [done|]. by destruct (number_head_facts c Hc) as (? & _ & _ & _ & _ & _ & _ & ?).
Qed.

Lemma skip_ws_print indent level v rest :
  skip_ws (print indent level v +:+ rest) = print indent level v +:+ rest.
Proof.
  destruct (print_head indent level v) as (c & s & -> & Hc & _).
  change (String c s +:+ rest) with (String c (s +:+ rest)). simpl. by rewrite Hc.
Qed.

Lemma parse_value_unfold fuel s :
  parse_value (S fuel) s =
  match skip_ws s with
  | EmptyString => None
  | String c rest =>
      if Ascii.eqb c "n" then
        match strip_prefix "ull" rest with
        | Some r => Some (JNull, r)
        | None => None
        end
      else if Ascii.eqb c "t" then
        match strip_prefix "rue" rest with
        | Some r => Some (JBool true, r)
        | None => None
        end
      else if Ascii.eqb c "f" then
        match strip_prefix "alse" rest with
        | Some r => Some (JBool false, r)
        | None => None
        end
      else if Ascii.eqb c QUOTE then
        match parse_string_body rest with
        | Some (str, r) => Some (JString str, r)
        | None => None
        end
      else if Ascii.eqb c "[" then
        match strip_prefix "]" (skip_ws rest) with
        | Some r => Some (JArray [], r)
        | None =>
            match parse_items fuel rest with
            | Some (items, r) => Some (JArray items, r)
            | None => None
            end
        end
      else if Ascii.eqb c "{" then
        match strip_prefix "}" (skip_ws rest) with
        | Some r => Some (JObject [], r)
        | None =>
            match parse_members fuel rest with
            | Some (members, r) => Some (JObject members, r)
            | None => None
            end
        end
      else
        match parse_number (String c rest) with
        | Some (n, r) => Some (JNumber n, r)
        | None => None
        end
  end.
Proof. reflexivity. Qed.

Lemma parse_items_unfold fuel s :
  parse_items (S fuel) s =
  match parse_value fuel s with
  | Some (item, r) =>
      match skip_ws r with
      | String c r' =>
          if Ascii.eqb c "," then
            match parse_items fuel r' with
            | Some (items, r'') => Some (item :: items, r'')
            | None => None
            end
          else if Ascii.eqb c "]" then Some ([item], r')
          else None
      | EmptyString => None
      end
  | None => None
  end.
Proof. reflexivity. Qed.

Lemma parse_members_unfold fuel s :
  parse_members (S fuel) s =
  match strip_prefix (String QUOTE "") (skip_ws s) with
  | Some r0 =>
      match parse_string_body r0 with
      | Some (key, r1) =>
          match strip_prefix ":" (skip_ws r1) with
          | Some r2 =>
              match parse_value fuel r2 with
              | Some (item, r3) =>
                  match skip_ws r3 with
                  | String c r4 =>
                      if Ascii.eqb c "," then
                        match parse_members fuel r4 with
                        | Some (members, r5) => Some ((key, item) :: members, r5)
                        | None => None
                        end
                      else if Ascii.eqb c "}" then Some ([(key, item)], r4)
                      else None
                  | EmptyString => None
                  end
              | None => None
              end
          | None => None
          end
      | None => None
      end
  | None => None
  end.
Proof. reflexivity. Qed.

Lemma string_app_nil_l (b : string) : "" +:+ b = b.
Proof. reflexivity. Qed.

Create Rewrite HintDb strapp.
#[local] Hint Rewrite string_app_assoc string_app_cons string_app_nil_l : strapp.

Ltac norm_app := autorewrite with strapp.

Lemma number_end_break indent level c s :
  number_end (String c s) = true →
  number_end (break indent level +:+ String c s) = true.
Proof. by destruct indent. Qed.

Lemma skip_ws_colon indent s :
  ∃ lead, strip_prefix ":" (skip_ws (colon indent +:+ s)) = Some (lead +:+ s) ∧
          all_ws lead = true.
Proof. destruct indent; [by exists ""|by exists " "]. Qed.

Lemma parse_value_string fuel s rest :
  skip_ws s = String QUOTE rest →
  parse_value (S fuel) s =
  match parse_string_body rest with
  | Some (str, r) => Some (JString str, r)
  | None => None
  end.
Proof. intros H. by rewrite parse_value_unfold, H. Qed.

Lemma parse_value_array fuel s rest :
  skip_ws s = String "[" rest →
  parse_value (S fuel) s =
  match strip_prefix "]" (skip_ws rest) with
  | Some r => Some (JArray [], r)
  | None =>
      match parse_items fuel rest with
      | Some (items, r) => Some (JArray items, r)
      | None => None
      end
  end.
Proof. intros H. by rewrite parse_value_unfold, H. Qed.

Lemma parse_value_object fuel s rest :
  skip_ws s = String "{" rest →
  parse_value (S fuel) s =
  match strip_prefix "}" (skip_ws rest) with
  | Some r => Some (JObject [], r)
  | None =>
      match parse_members fuel rest with
      | Some (members, r) => Some (JObject members, r)
      | None => None
      end
  end.
Proof. intros H. by rewrite parse_value_unfold, H. Qed.

Lemma parse_value_number fuel s c rest :
  skip_ws s = String c rest →
  number_head c = true →
  parse_value (S fuel) s =
  match parse_number (String c rest) with
  | Some (n, r) => Some (JNumber n, r)
  | None => None
  end.
Proof.
  intros H Hc. rewrite parse_value_unfold, H.
  by destruct (number_head_facts c Hc) as (_ & -> & -> & -> & -> & -> & -> & _).
Qed.

Lemma parse_members_key fuel s r0 :
  skip_ws s = String QUOTE r0 →
  parse_members (S fuel) s =
  match parse_string_body r0 with
  | Some (key, r1) =>
      match strip_prefix ":" (skip_ws r1) with
      | Some r2 =>
          match parse_value fuel r2 with
          | Some (item, r3) =>
              match skip_ws r3 with
              | String c r4 =>
                  if Ascii.eqb c "," then
                    match parse_members fuel r4 with
                    | Some (members, r5) => Some ((key, item) :: members, r5)
                    | None => None
                    end
                  else if Ascii.eqb c "}" then Some ([(key, item)], r4)
                  else None
              | EmptyString => None
              end
          | None => None
          end
      | None => None
      end
  | None => None
  end.
Proof. intros H. by rewrite parse_members_unfold, H. Qed.

Lemma skip_ws_comma s : skip_ws (String "," s) = String "," s.
Proof. reflexivity. Qed.

Lemma skip_ws_quote s : skip_ws (String QUOTE s) = String QUOTE s.
Proof. reflexivity. Qed.

Lemma strip_close_quote c s : strip_prefix (String c "") (String QUOTE s) = None ↔ c ≠ QUOTE.
Proof.
  simpl. destruct (Ascii.eqb_spec c QUOTE); split; congruence.
Qed.

Lemma parse_print_fuel indent : ∀ fuel,
  (∀ v level lead rest,
     size v ≤ fuel → all_ws lead = true → number_end rest = true →
     parse_value fuel (lead +:+ print indent level v +:+ rest) = Some (v, rest)) ∧
  (∀ x xs level rest,
     size_items (x :: xs) ≤ fuel →
     parse_items fuel
       (break indent (S level) +:+ print indent (S level) x +:+
        items_tail (print indent (S level)) (break indent (S level)) xs +:+
        break indent level +:+ String "]" rest)
     = Some (x :: xs, rest)) ∧
  (∀ k x xs level rest,
     size_members ((k, x) :: xs) ≤ fuel →
     parse_members fuel
       (break indent (S level) +:+ quote k +:+ colon indent +:+
        print indent (S level) x +:+
        members_tail (print indent (S level)) (break indent (S level)) (colon indent) xs +:+
        break indent level +:+ String "}" rest)
     = Some ((k, x) :: xs, rest)).
Proof.
  induction fuel as [|fuel (IHv & IHi & IHm)].
  { split; [|split].
    - intros v ? ? ? Hsize. destruct v; simpl in Hsize; lia.
    - intros ? ? ? ? Hsize. unfold size_items in Hsize. simpl in Hsize. lia.
    - intros ? ? ? ? ? Hsize. unfold size_members in Hsize. simpl in Hsize. lia. }
  split; [|split].
  - intros v level lead rest Hsize Hlead Hend.
    pose proof (skip_ws_lead lead (print indent level v +:+ rest) Hlead) as Hskip.
    rewrite skip_ws_print in Hskip.
    destruct v as [|[]|n|str|[|x xs]|[|[k x] xs]];
      try (by rewrite parse_value_unfold, Hskip).
    + (* number *)
      destruct (print_number_head n) as (c & s & Hs & Hc).
      change (print indent level (JNumber n)) with (print_number n) in *.
      pose proof (parse_number_print n rest Hend) as Hparse.
      rewrite Hs in *. rewrite string_app_cons in *.
      by rewrite (parse_value_number _ _ _ _ Hskip Hc), Hparse.
    + (* string *)
      change (print indent level (JString str))
        with (String QUOTE (escape str +:+ String QUOTE "")) in *.
      autorewrite with strapp in Hskip |- *.
      by rewrite (parse_value_string _ _ _ Hskip), parse_string_body_escape.
    + (* array *)
      cbn [print] in Hskip |- *. autorewrite with strapp in Hskip |- *.
      rewrite (parse_value_array _ _ _ Hskip).
      rewrite skip_ws_break, skip_ws_print.
      destruct (print_head indent (S level) x) as (c & s & Hs & _ & Hc).
      rewrite Hs at 1. rewrite string_app_cons. cbn [strip_prefix]. rewrite Hc.
      rewrite IHi; [done|]. simpl in Hsize. unfold size_items. simpl. lia.
    + (* object *)
      cbn [print] in Hskip |- *. autorewrite with strapp in Hskip |- *.
      rewrite (parse_value_object _ _ _ Hskip).
      rewrite skip_ws_break. unfold quote. norm_app. rewrite skip_ws_quote.
      rewrite (proj2 (strip_close_quote _ _)) by done.
      pose proof (IHm k x xs level rest) as Hm. unfold quote in Hm.
      autorewrite with strapp in Hm.
      rewrite Hm; [done|]. simpl in Hsize. unfold size_members. simpl. lia.
  - intros x xs level rest Hsize.
    rewrite parse_items_unfold.
    unfold size_items in Hsize. rewrite fmap_cons in Hsize. simpl in Hsize.
    destruct xs as [|y ys].
    + cbn [items_tail]. norm_app.
      rewrite IHv; [|lia|apply all_ws_break|by apply number_end_break].
      by rewrite skip_ws_break.
    + cbn [items_tail]. norm_app.
      rewrite IHv; [|lia|apply all_ws_break|done].
      rewrite skip_ws_comma. cbn -[parse_items].
      rewrite IHi; [done|]. unfold size_items. rewrite fmap_cons. simpl.
      rewrite fmap_cons in Hsize. simpl in Hsize. lia.
  - intros k x xs level rest Hsize.
    unfold size_members in Hsize. rewrite fmap_cons in Hsize. simpl in Hsize.
    assert (Hskip : ∀ s, skip_ws (break indent (S level) +:+ quote k +:+ s)
                         = String QUOTE (escape k +:+ String QUOTE s)).
    { intros s. rewrite skip_ws_break. unfold quote. by norm_app. }
    rewrite (parse_members_key _ _ _ (Hskip _)), parse_string_body_escape.
    match goal with |- context [skip_ws (colon indent +:+ ?s)] =>
      destruct (skip_ws_colon indent s) as (lead & -> & Hlead) end.
    destruct xs as [|[k' y] ys].
    + cbn [members_tail]. norm_app.
      rewrite IHv; [|lia|done|by apply number_end_break].
      by rewrite skip_ws_break.
    + cbn [members_tail]. norm_app.
      rewrite IHv; [|lia|done|done].
      rewrite skip_ws_comma. cbn -[parse_members].
      pose proof (IHm k' y ys level rest) as Hm.
      unfold quote in Hm |- *. autorewrite with strapp in Hm |- *.
      rewrite Hm; [done|]. unfold size_members. rewrite fmap_cons. simpl.
      rewrite fmap_cons in Hsize. simpl in Hsize. lia.
Qed.

Lemma JsVal_nested_ind (P : JsVal → Prop) :
  P JNull →
  (∀ b, P (JBool b)) →
  (∀ n, P (JNumber n)) →
  (∀ s, P (JString s)) →
  (∀ items, Forall P items → P (JArray items)) →
  (∀ members, Forall (λ kv, P (snd kv)) members → P (JObject members)) →
  ∀ v, P v.
Proof.
  intros Hnull Hbool Hnum Hstr Harr Hobj.
  fix IH 1. intros [|b|n|s|items|members].
  - exact Hnull.
  - apply Hbool.
  - apply Hnum.
  - apply Hstr.
  - apply Harr. induction items as [|x xs IHxs]; constructor; [apply IH|exact IHxs].
  - apply Hobj. induction members as [|[k x] xs IHxs]; constructor; [apply IH|exact IHxs].
Qed.

Lemma string_length_app (a b : string) :
  String.length (a +:+ b) = String.length a + String.length b.
Proof.
  induction a as [|c a IH]; [done|].
  change (S (String.length (a +:+ b)) = S (String.length a + String.length b)).
  by rewrite IH.
Qed.

Lemma size_le_length indent v : ∀ level, size v ≤ String.length (print indent level v).
Proof.
  induction v as [|b|n|s|items IH|members IH] using JsVal_nested_ind; intros level.
  - simpl. lia.
  - destruct b; simpl; lia.
  - destruct (print_number_head n) as (c & s & Hs & _).
    change (print indent level (JNumber n)) with (print_number n). rewrite Hs. simpl. lia.
  - simpl. lia.
  - destruct items as [|x xs]; [simpl; lia|].
    apply Forall_cons in IH as [Hx Hxs].
    cbn [print size]. rewrite !string_length_app. rewrite fmap_cons. simpl.
    assert (Htail : size_items xs ≤
              String.length (items_tail (print indent (S level)) (break indent (S level)) xs)).
    { clear Hx. induction xs as [|y ys IHys]; [done|].
      apply Forall_cons in Hxs as [Hy Hys].
      unfold size_items. rewrite fmap_cons. cbn [items_tail list_sum].
      rewrite !string_length_app. specialize (IHys Hys). specialize (Hy (S level)).
      unfold size_items in IHys. simpl. lia. }
    specialize (Hx (S level)). unfold size_items in Htail. lia.
  - destruct members as [|[k x] xs]; [simpl; lia|].
    apply Forall_cons in IH as [Hx Hxs]. simpl in Hx.
    cbn [print size]. rewrite !string_length_app. rewrite fmap_cons. simpl.
    assert (Htail : size_members xs ≤
              String.length (members_tail (print indent (S level)) (break indent (S level))
                                          (colon indent) xs)).
    { clear Hx. induction xs as [|[k' y] ys IHys]; [done|].
      apply Forall_cons in Hxs as [Hy Hys]. simpl in Hy.
      unfold size_members. rewrite fmap_cons. cbn [members_tail list_sum].
      rewrite !string_length_app. specialize (IHys Hys). specialize (Hy (S level)).
      unfold size_members in IHys. simpl. lia. }
    specialize (Hx (S level)). unfold size_members in Htail. lia.
Qed.

Theorem parse_stringify v indent : parse (stringify v indent) = Some v.
Proof.
  unfold parse, stringify.
  destruct (parse_print_fuel indent (S (String.length (print indent 0 v)))) as (Hv & _ & _).
  specialize (Hv v 0 "" "").
  rewrite string_app_nil_l, string_app_nil_r in Hv.
  rewrite Hv; [done| |done..].
  pose proof (size_le_length indent v 0). lia.
Qed.

End RefJSONFacts.

(** ** Export and import *)





(** ** Saving and loading *)





(** * Further properties of the store and of the handlers *)

(** ** Sequences of operations *)

Lemma CustomNode_handleClick_run id w :
  CustomNode_handleClick id w =
  Ok tt {| store := {| nodes := nodes (store w);
                       edges := edges (store w);
                       selectedNode :=
                         match find_by_id id (nodes (store w)) with
                         | Some node => Some node
                         | None => selectedNode (store w)
                         end |};
           localStorage := localStorage w;
           timers := timers w;
           console := console w;
           alerts := alerts w |}.
Proof.
  unfold CustomNode_handleClick, bind, get.
  destruct w as [[ns es sel] ls ts c a]. simpl.
  by destruct (find_by_id id ns).
Qed.

Lemma find_by_id_Some id l node :
  find_by_id id l = Some node →
  node ∈ l ∧ Node.id node = id ∧
  ∃ i, l !! i = Some node ∧ ∀ j other, j < i → l !! j = Some other → Node.id other ≠ id.
Proof.
  induction l as [|n l IH]; [done|]. simpl.
  destruct (decide (Node.id n = id)) as [Hid|Hid].
  - intros [= <-]. split; [by left|]. split; [done|].
    exists 0. split; [done|]. intros j other Hj. lia.
  - intros Hfind. destruct (IH Hfind) as (Hin & Hnode & i & Hi & Hfirst).
    split; [by right|]. split; [done|]. exists (S i). split; [done|].
    intros [|j] other Hj Hother; simpl in Hother.
    + by injection Hother as <-.
    + apply (Hfirst j); [lia|done].
Qed.

Lemma find_by_id_None id l :
  find_by_id id l = None ↔ ∀ node, node ∈ l → Node.id node ≠ id.
Proof.
  induction l as [|n l IH]; simpl.
  - split; [|done]. intros _ node Hin. by apply elem_of_nil in Hin.
  - destruct (decide (Node.id n = id)) as [Hid|Hid].
    + split; [done|]. intros Habsent. exfalso. by apply (Habsent n); [left|].
    + rewrite IH. split.
      * intros Habsent node [->|Hin]%elem_of_cons; [done|by apply Habsent].
      * intros Habsent node Hin. apply Habsent. by right.
Qed.

(** What one operation leaves alone. *)
Lemma run_op_frame op w :
  ∃ w', run_op op w = Ok tt w' ∧
        localStorage w' = localStorage w ∧
        console w' = console w ∧
        alerts w' = alerts w ∧
        timers w' = timers w ++ (if schedules_save op then [100] else []).
Proof.
  destruct op; simpl; eexists;
    (split;
     [first [apply addNode_run | apply updateNode_run | apply deleteNode_run
            | apply toggleNodeVisibility_run | apply clearFlow_run
            | apply generateBulkNodes_run | apply CustomNode_handleClick_run
            | reflexivity]|]);
    simpl; by rewrite ?app_nil_r.
Qed.

Lemma run_ops_app ops1 ops2 w :
  run_ops (ops1 ++ ops2) w =
  match run_ops ops1 w with
  | Ok _ w' => run_ops ops2 w'
  | Raise e w' => Raise e w'
  | Stuck => Stuck
  end.
Proof.
  revert w. induction ops1 as [|op ops1 IH]; intros w; [done|].
  simpl. unfold bind. destruct (run_op op w); [apply IH|done..].
Qed.

(** What a sequence of operations leaves alone. *)
Lemma run_ops_frame (ops : list StoreOp) (w : World) :
  ∃ w', run_ops ops w = Ok tt w' ∧
        localStorage w' = localStorage w ∧
        console w' = console w ∧
        alerts w' = alerts w ∧
        timers w' = timers w ++ replicate (length (filter (λ op, schedules_save op = true) ops)) 100.
Proof.
  revert w. induction ops as [|op ops IH]; intros w.
  - exists w. by rewrite app_nil_r.
  - destruct (run_op_frame op w) as (w1 & Hrun & Hls & Hc & Ha & Ht).
    destruct (IH w1) as (w' & Hrun' & Hls' & Hc' & Ha' & Ht').
    exists w'. simpl. unfold bind. rewrite Hrun.
    split; [done|]. split; [congruence|]. split; [congruence|]. split; [congruence|].
    rewrite Ht', Ht, <- app_assoc. f_equal.
    destruct (schedules_save op) eqn:Hop.
    + by rewrite filter_cons_True.
    + rewrite filter_cons_False; [done|]. by rewrite Hop.
Qed.

(** X1. Any sequence of store operations returns normally; it never
    writes the storage, the console or an alert, and it leaves behind one
    pending save of delay 100 for each operation other than a selection
    change, after the saves that were pending already. *)
Theorem store_operations_only_schedule_saves (ops : list StoreOp) (w : World) :
  ∃ w', run_ops ops w = Ok tt w' ∧
        localStorage w' = localStorage w ∧
        console w' = console w ∧
        alerts w' = alerts w ∧
        timers w' = timers w ++ replicate (length (filter (λ op, schedules_save op = true) ops)) 100 ∧
        length (timers w) ≤ length (timers w').
Proof.
  destruct (run_ops_frame ops w) as (w' & Hrun & Hls & Hc & Ha & Ht).
  exists w'. repeat (split; [done|]). rewrite Ht, length_app. lia.
Qed.

(** ** Invariants *)








Lemma selection_mirrors_grow s (new : list Node.t) :
  selection_mirrors s →
  selection_mirrors
    {| nodes := nodes s ++ new; edges := edges s; selectedNode := selectedNode s |}.
Proof.
  intros Hmirror selected Hsel. destruct (Hmirror selected Hsel) as (node & Hin & Hid & Hdata).
  exists node. simpl. split; [apply elem_of_app; by left|done].
Qed.

Lemma run_op_selection_mirrors op w w' :
  selects_freely op = false →
  run_op op w = Ok tt w' → selection_mirrors (store w) → selection_mirrors (store w').
Proof.
  destruct op as [env position|nodeId data|nodeId|[node|]|node|nodeId|nodeId| |env count];
    simpl; intros Hop Hrun Hmirror; try discriminate Hop.
  - rewrite addNode_run in Hrun. injection Hrun as <-. by apply selection_mirrors_grow.
  - rewrite updateNode_run in Hrun. injection Hrun as <-.
    intros selected' Hsel. simpl in Hsel.
    destruct (selectedNode (store w)) as [selected|] eqn:Hold; [|done].
    destruct (Hmirror selected Hold) as (node & Hin & Hid & Hdata).
    exists (if decide (Node.id node = nodeId) then with_merged_data data node else node).
    simpl. split; [apply list_elem_of_fmap; by exists node|].
    destruct (decide (Node.id selected = nodeId)) as [Hsame|Hother];
      injection Hsel as <-.
    + rewrite decide_True by congruence. simpl. split; [done|]. by rewrite Hdata.
    + by rewrite decide_False by congruence.
  - rewrite deleteNode_run in Hrun. injection Hrun as <-.
    intros selected' Hsel. simpl in Hsel.
    destruct (selectedNode (store w)) as [selected|] eqn:Hold; [|done].
    destruct (decide (Node.id selected = nodeId)) as [Hsame|Hother]; [done|].
    injection Hsel as <-.
    destruct (Hmirror selected Hold) as (node & Hin & Hid & Hdata).
    exists node. simpl. split; [|done]. apply list_elem_of_filter. split; congruence.
  - injection Hrun as <-. intros selected Hsel. simpl in Hsel. discriminate Hsel.
  - rewrite CustomNode_handleClick_run in Hrun. injection Hrun as <-.
    intros selected Hsel. simpl in Hsel.
    destruct (find_by_id nodeId (nodes (store w))) as [node|] eqn:Hfind.
    + injection Hsel as <-. apply find_by_id_Some in Hfind as (Hin & _). by exists node.
    + by apply Hmirror.
  - rewrite toggleNodeVisibility_run in Hrun. injection Hrun as <-.
    intros selected Hsel. simpl in Hsel.
    destruct (Hmirror selected Hsel) as (node & Hin & Hid & Hdata).
    exists (if decide (Node.id node = nodeId) then with_toggled_hidden node else node).
    simpl. split; [apply list_elem_of_fmap; by exists node|].
    by destruct (decide (Node.id node = nodeId)).
  - rewrite clearFlow_run in Hrun. injection Hrun as <-.
    intros selected Hsel. simpl in Hsel. discriminate Hsel.
  - rewrite generateBulkNodes_run in Hrun. injection Hrun as <-.
    by apply selection_mirrors_grow.
Qed.

(** X3. The selection snapshot stays in step with the collection: when it
    shows the id and the data of an entry, it still does after any
    sequence of operations in which a node is selected only by its id
    ([handleClick] of [CustomNode]) or the selection is closed. Selecting
    an arbitrary node object ([setSelectedNode], [onNodeClick]) is what can
    break it. *)
Theorem store_operations_keep_selection_in_step (ops : list StoreOp) (w : World) :
  Forall (λ op, selects_freely op = false) ops →
  selection_mirrors (store w) →
  ∃ w', run_ops ops w = Ok tt w' ∧ selection_mirrors (store w').
Proof.
  revert w. induction ops as [|op ops IH]; intros w Hops Hmirror.
  - by exists w.
  - apply Forall_cons in Hops as [Hop Hops].
    destruct (run_op_frame op w) as (w1 & Hrun & _).
    destruct (IH w1 Hops (run_op_selection_mirrors op w w1 Hop Hrun Hmirror))
      as (w' & Hrun' & Hmirror').
    exists w'. simpl. unfold bind. by rewrite Hrun.
Qed.

Lemma store_operations_keep_selection_in_step_witness :
  ∃ w' selected,
    run_ops [OpSelectById "2"; OpUpdateNode "2" (rename_to "Renamed");
             OpToggleNodeVisibility "2"; OpDeleteNode "1"] initialWorld = Ok tt w' ∧
    selectedNode (store w') = Some selected ∧
    NodeData.label (Node.data selected) = "Renamed" ∧
    selection_mirrors (store w').
Proof.
  destruct (store_operations_keep_selection_in_step
              [OpSelectById "2"; OpUpdateNode "2" (rename_to "Renamed");
               OpToggleNodeVisibility "2"; OpDeleteNode "1"] initialWorld)
    as (w' & Hrun & Hmirror).
  - by repeat constructor.
  - intros selected Hsel. discriminate Hsel.
  - pose proof Hrun as Hvalue. vm_compute in Hvalue. injection Hvalue as <-.
    eexists _, _. split; [exact Hrun|]. split; [reflexivity|]. split; [reflexivity|].
    exact Hmirror.
Defined.

(** A free selection does break it: the snapshot of a node object that is
    no entry shows data that no entry has. *)
Example free_selection_is_not_in_step :
  selection_mirrors (store initialWorld) ∧
  ∃ w', run_ops [OpSetSelectedNode (selectedNode (store stale_selection_world))]
                initialWorld = Ok tt w' ∧
        ¬ selection_mirrors (store w').
Proof.
  split; [intros selected Hsel; discriminate Hsel|].
  eexists. split; [reflexivity|]. intros Hmirror.
  destruct (Hmirror _ eq_refl) as (node & Hin & Hid & _).
  simpl in Hin, Hid. by apply (initialNodes_lack "node-7") in Hin.
Qed.

(** ** Selecting a node by its id *)

(** X4. [handleClick] of the node component of id [id] selects the first
    node of the collection that has this id, so the snapshot is an entry of
    the collection; when no node has the id nothing changes. In both cases
    nodes, edges, storage and timers are untouched. *)
Theorem handleClick_selects_first_entry (id : string) (w : World) :
  ∃ w', CustomNode_handleClick id w = Ok tt w' ∧
    nodes (store w') = nodes (store w) ∧
    edges (store w') = edges (store w) ∧
    localStorage w' = localStorage w ∧
    timers w' = timers w ∧
    ((∀ node, node ∈ nodes (store w) → Node.id node ≠ id) → w' = w) ∧
    (∀ node, node ∈ nodes (store w) → Node.id node = id →
       ∃ selected i,
         selectedNode (store w') = Some selected ∧
         Node.id selected = id ∧
         nodes (store w) !! i = Some selected ∧
         ∀ j other, j < i → nodes (store w) !! j = Some other → Node.id other ≠ id).
Proof.
  eexists. split; [apply CustomNode_handleClick_run|]. simpl.
  split; [done|]. split; [done|]. split; [done|]. split; [done|]. split.
  - intros Habsent. apply find_by_id_None in Habsent. rewrite Habsent.
    by destruct w as [[ns es sel] ls ts c a].
  - intros node Hin Hid.
    destruct (find_by_id id (nodes (store w))) as [selected|] eqn:Hfind.
    + apply find_by_id_Some in Hfind as (_ & Hsel & i & Hi & Hfirst).
      by exists selected, i.
    + exfalso. by apply (proj1 (find_by_id_None id _) Hfind node).
Qed.

Lemma handleClick_witness :
  (∃ w', CustomNode_handleClick "9" initialWorld = Ok tt w' ∧ w' = initialWorld) ∧
  (∃ w' selected, CustomNode_handleClick "2" initialWorld = Ok tt w' ∧
                  selectedNode (store w') = Some selected ∧
                  nodes (store initialWorld) !! 1 = Some selected).
Proof.
  split.
  - destruct (handleClick_selects_first_entry "9" initialWorld)
      as (w' & Hrun & _ & _ & _ & _ & Habsent & _).
    exists w'. split; [exact Hrun|]. apply Habsent. by apply initialNodes_lack.
  - destruct (handleClick_selects_first_entry "2" initialWorld)
      as (w' & Hrun & _ & _ & _ & _ & _ & Hfound).
    assert (Hin : ∃ node, nodes (store initialWorld) !! 1 = Some node ∧ Node.id node = "2")
      by (by eexists).
    destruct Hin as (node & Hin & Hnode).
    destruct (Hfound node (list_elem_of_lookup_2 _ 1 _ Hin) Hnode)
      as (selected & i & Hsel & Hid & Hi & Hfirst).
    exists w', selected. split; [exact Hrun|]. split; [exact Hsel|].
    destruct i as [|[|i]]; simpl in Hi.
    + injection Hi as <-. discriminate Hid.
    + exact Hi.
    + discriminate Hi.
Defined.

(** ** Deferred saves *)






(** ** Loading what was saved *)






(** ** How the operations compose *)

Lemma filter_filter_comm {A} (P Q : A → Prop)
    `{!∀ x, Decision (P x)} `{!∀ x, Decision (Q x)} (l : list A) :
  filter P (filter Q l) = filter Q (filter P l).
Proof. rewrite !list_filter_filter. apply list_filter_iff. tauto. Qed.

Lemma filter_filter_same {A} (P : A → Prop) `{!∀ x, Decision (P x)} (l : list A) :
  filter P (filter P l) = filter P l.
Proof. rewrite list_filter_filter. apply list_filter_iff. tauto. Qed.

(** X8. Deletions commute and repeat harmlessly: deleting two ids in
    either order ends in the same world, and deleting the same id a second
    time changes nothing in the store (it only schedules one more save). *)
Theorem deleteNode_commutes_and_repeats (a b : string) (w : World) :
  ∃ w1 w2 w3,
    run_ops [OpDeleteNode a; OpDeleteNode b] w = Ok tt w1 ∧
    run_ops [OpDeleteNode b; OpDeleteNode a] w = Ok tt w1 ∧
    deleteNode a w = Ok tt w2 ∧
    deleteNode a w2 = Ok tt w3 ∧
    store w3 = store w2 ∧
    timers w3 = timers w2 ++ [100].
Proof.
  destruct w as [[ns es sel] ls ts c al].
  eexists _, _, _. simpl. unfold bind. rewrite !deleteNode_run. simpl.
  split; [reflexivity|]. split; [|split; [reflexivity|split; [reflexivity|split]]].
  - unfold after_mutation. simpl. do 3 f_equal.
    + apply filter_filter_comm.
    + apply filter_filter_comm.
    + destruct sel as [selected|]; [|done].
      by destruct (decide (Node.id selected = a)), (decide (Node.id selected = b));
        simpl; rewrite ?decide_True, ?decide_False by done.
  - simpl. f_equal.
    + apply filter_filter_same.
    + apply filter_filter_same.
    + destruct sel as [selected|]; [|done].
      destruct (decide (Node.id selected = a)); [done|].
      by rewrite decide_False.
  - done.
Qed.

Lemma merge_data_overlay d p1 p2 :
  merge_data (merge_data d p1) p2 = merge_data d (overlay p1 p2).
Proof.
  destruct d as [l de co], p1 as [l1 d1 c1], p2 as [[l2|] [d2|] [c2|]]; reflexivity.
Qed.

Lemma with_merged_data_overlay p1 p2 node :
  with_merged_data p2 (with_merged_data p1 node) = with_merged_data (overlay p1 p2) node.
Proof. unfold with_merged_data. simpl. by rewrite merge_data_overlay. Qed.

Lemma with_merged_data_empty node : with_merged_data empty_data node = node.
Proof. by destruct node as [i p [l de co] t h]. Qed.

(** X9. Updates of one node compose like object spreads: updating with
    [p1] and then with [p2] leaves the store as one update with the overlay
    of [p2] over [p1] does, so the later value of a key wins and the keys
    only [p1] names survive; an update with the empty payload leaves the
    store as it is and still schedules a save; updates of two different
    ids commute. *)
Theorem updateNode_composes (nodeId : string) (p1 p2 : PartialNodeData.t) (w : World) :
  (∃ w12 w',
     run_ops [OpUpdateNode nodeId p1; OpUpdateNode nodeId p2] w = Ok tt w12 ∧
     updateNode nodeId (overlay p1 p2) w = Ok tt w' ∧
     store w12 = store w') ∧
  (∃ w0, updateNode nodeId empty_data w = Ok tt w0 ∧
         store w0 = store w ∧ timers w0 = timers w ++ [100]) ∧
  (∀ otherId, otherId ≠ nodeId →
     ∃ w',
       run_ops [OpUpdateNode nodeId p1; OpUpdateNode otherId p2] w = Ok tt w' ∧
       run_ops [OpUpdateNode otherId p2; OpUpdateNode nodeId p1] w = Ok tt w').
Proof.
  destruct w as [[ns es sel] ls ts c al].
  split; [|split].
  - eexists _, _. simpl. unfold bind. rewrite !updateNode_run. simpl.
    split; [reflexivity|]. split; [reflexivity|]. simpl. f_equal.
    + rewrite <- list_fmap_compose. apply list_fmap_ext. intros i node _. simpl.
      destruct (decide (Node.id node = nodeId)) as [Hid|Hid].
      * rewrite decide_True by done. apply with_merged_data_overlay.
      * by rewrite decide_False.
    + destruct sel as [selected|]; [|done].
      destruct (decide (Node.id selected = nodeId)) as [Hid|Hid].
      * rewrite decide_True by done. by rewrite with_merged_data_overlay.
      * by rewrite decide_False.
  - eexists. rewrite updateNode_run. simpl. split; [reflexivity|]. split; [|done].
    simpl. f_equal.
    + rewrite <- (list_fmap_id ns) at 2. apply list_fmap_ext. intros i node _. simpl.
      destruct (decide (Node.id node = nodeId)); [apply with_merged_data_empty|done].
    + destruct sel as [selected|]; [|done].
      destruct (decide (Node.id selected = nodeId)); [|done].
      by rewrite with_merged_data_empty.
  - intros otherId Hother. eexists. simpl. unfold bind. rewrite !updateNode_run. simpl.
    split; [reflexivity|]. unfold after_mutation. simpl. do 3 f_equal.
    + rewrite <- !list_fmap_compose. apply list_fmap_ext. intros i node _. simpl.
      destruct (decide (Node.id node = nodeId)) as [Hid|Hid],
               (decide (Node.id node = otherId)) as [Hid'|Hid']; simpl;
        rewrite ?decide_True, ?decide_False by done; congruence.
    + destruct sel as [selected|]; [|done].
      destruct (decide (Node.id selected = nodeId)) as [Hid|Hid],
               (decide (Node.id selected = otherId)) as [Hid'|Hid']; simpl;
        rewrite ?decide_True, ?decide_False by done; congruence.
Qed.

Lemma updateNode_composes_witness :
  ∃ w',
    run_ops [OpUpdateNode "2" (rename_to "Second"); OpUpdateNode "1" (rename_to "First")]
            initialWorld = Ok tt w' ∧
    run_ops [OpUpdateNode "1" (rename_to "First"); OpUpdateNode "2" (rename_to "Second")]
            initialWorld = Ok tt w'.
Proof.
  destruct (updateNode_composes "2" (rename_to "Second") (rename_to "First") initialWorld)
    as (_ & _ & Hcommute).
  apply (Hcommute "1"). discriminate.
Defined.

(** X10. Toggling the visibility of an id twice gives every node its
    visibility back and changes no other field; a node of that id whose
    flag was absent now carries an explicit false, every other node is the
    same object as before. *)
Theorem toggleNodeVisibility_twice (nodeId : string) (w : World) :
  ∃ w',
    run_ops [OpToggleNodeVisibility nodeId; OpToggleNodeVisibility nodeId] w = Ok tt w' ∧
    length (nodes (store w')) = length (nodes (store w)) ∧
    edges (store w') = edges (store w) ∧
    selectedNode (store w') = selectedNode (store w) ∧
    (∀ i node, nodes (store w) !! i = Some node →
       ∃ node', nodes (store w') !! i = Some node' ∧
                is_hidden node' = is_hidden node ∧
                Node.id node' = Node.id node ∧
                Node.position node' = Node.position node ∧
                Node.data node' = Node.data node ∧
                Node.type node' = Node.type node ∧
                (Node.id node = nodeId → Node.hidden node' = Some (is_hidden node)) ∧
                (Node.id node ≠ nodeId ∨ Node.hidden node ≠ None → node' = node)).
Proof.
  eexists. simpl. unfold bind. rewrite !toggleNodeVisibility_run. simpl.
  split; [reflexivity|]. simpl. split; [by rewrite !length_fmap|].
  split; [done|]. split; [done|].
  intros i node Hi. rewrite <- list_fmap_compose, list_lookup_fmap, Hi. simpl.
  eexists. split; [reflexivity|].
  destruct (decide (Node.id node = nodeId)) as [Hid|Hid].
  - rewrite decide_True by done.
    destruct node as [id p d t [[]|]]; simpl; repeat (split; [done|]);
      intros [Hne|Hne]; done.
  - rewrite decide_False by done. repeat (split; [done|]). done.
Qed.

Lemma toggleNodeVisibility_twice_witness :
  ∃ w' node',
    run_ops [OpToggleNodeVisibility "1"; OpToggleNodeVisibility "1"] initialWorld
      = Ok tt w' ∧
    nodes (store w') !! 0 = Some node' ∧
    Node.hidden node' = Some false ∧
    nodes (store w') !! 1 = nodes (store initialWorld) !! 1.
Proof.
  destruct (toggleNodeVisibility_twice "1" initialWorld)
    as (w' & Hrun & _ & _ & _ & Hnodes).
  destruct (Hnodes 0 _ eq_refl) as (node0 & H0 & _ & _ & _ & _ & _ & Hflag & _).
  destruct (Hnodes 1 _ eq_refl) as (node1 & H1 & _ & _ & _ & _ & _ & _ & Hsame).
  exists w', node0. split; [exact Hrun|]. split; [exact H0|].
  split; [exact (Hflag eq_refl)|].
  rewrite H1, Hsame; [reflexivity|]. left. discriminate.
Defined.

(** ** Ids of added nodes *)

Lemma to_int_not_nil z :
  Z.to_int z ≠ Decimal.Pos Decimal.Nil ∧ Z.to_int z ≠ Decimal.Neg Decimal.Nil.
Proof.
  pose proof (DecimalZ.to_of (Z.to_int z)) as Hnorm.
  rewrite DecimalZ.of_to in Hnorm.
  split; intros Hnil; rewrite Hnil in Hnorm; discriminate Hnorm.
Qed.

Lemma string_of_Z_inj z1 z2 : string_of_Z z1 = string_of_Z z2 → z1 = z2.
Proof.
  unfold string_of_Z. intros Heq. apply DecimalZ.to_int_inj.
  destruct (to_int_not_nil z1) as [Hp1 Hn1], (to_int_not_nil z2) as [Hp2 Hn2].
  pose proof (NilZero.isi _ Hp1 Hn1) as H1.
  pose proof (NilZero.isi _ Hp2 Hn2) as H2.
  rewrite Heq in H1. congruence.
Qed.

Lemma addNode_id_inj z1 z2 :
  "node-" +:+ string_of_Z z1 = "node-" +:+ string_of_Z z2 → z1 = z2.
Proof. intros Heq. apply string_of_Z_inj. by injection Heq. Qed.

Lemma addNode_calls_ids calls : ∀ w,
  ∃ w' added,
    addNode_calls calls w = Ok tt w' ∧
    nodes (store w') = nodes (store w) ++ added ∧
    Node.id <$> added = (λ call, "node-" +:+ string_of_Z (clock_of_call call)) <$> calls.
Proof.
  induction calls as [|[env position] calls IH]; intros w.
  - exists w, []. split; [done|]. by rewrite app_nil_r.
  - simpl. unfold bind at 1. rewrite addNode_run.
    match goal with |- context [after_mutation ?s w] =>
      destruct (IH (after_mutation s w)) as (w' & added & Hrun & Hnodes & Hids)
    end.
    simpl in Hnodes.
    eexists w', (_ :: added). split; [exact Hrun|].
    split; [by rewrite Hnodes, <- app_assoc|].
    rewrite fmap_cons, Hids. reflexivity.
Qed.

(** X11. The id of a node made by [addNode] is the prefix followed by the
    clock reading of the call, and the reading can be read back from the
    id: along any sequence of calls two added nodes get the same id exactly
    when their calls read the same clock value, so the added ids are
    pairwise distinct exactly when the readings are. *)
Theorem addNode_ids_follow_the_clock
    (calls : list (Platform * option Position.t)) (w : World) :
  ∃ w' added,
    addNode_calls calls w = Ok tt w' ∧
    nodes (store w') = nodes (store w) ++ added ∧
    length added = length calls ∧
    (∀ k node call, added !! k = Some node → calls !! k = Some call →
       Node.id node = "node-" +:+ string_of_Z (clock_of_call call)) ∧
    (∀ j k node1 node2 call1 call2,
       added !! j = Some node1 → added !! k = Some node2 →
       calls !! j = Some call1 → calls !! k = Some call2 →
       (Node.id node1 = Node.id node2 ↔ clock_of_call call1 = clock_of_call call2)) ∧
    (NoDup (Node.id <$> added) ↔ NoDup (clock_of_call <$> calls)).
Proof.
  destruct (addNode_calls_ids calls w) as (w' & added & Hrun & Hnodes & Hids).
  assert (Hid : ∀ k node call, added !! k = Some node → calls !! k = Some call →
                  Node.id node = "node-" +:+ string_of_Z (clock_of_call call)).
  { intros k node call Hk Hcall.
    assert (Hlook : (Node.id <$> added) !! k = Some (Node.id node))
      by (by rewrite list_lookup_fmap, Hk).
    rewrite Hids, list_lookup_fmap, Hcall in Hlook. simpl in Hlook. congruence. }
  exists w', added. split; [exact Hrun|]. split; [exact Hnodes|].
  split; [|split; [exact Hid|split]].
  - apply (f_equal length) in Hids. by rewrite !length_fmap in Hids.
  - intros j k node1 node2 call1 call2 Hj Hk Hc1 Hc2.
    rewrite (Hid j node1 call1 Hj Hc1), (Hid k node2 call2 Hk Hc2). split.
    + apply addNode_id_inj.
    + by intros ->.
  - rewrite Hids.
    rewrite (list_fmap_compose clock_of_call (λ z, "node-" +:+ string_of_Z z)).
    apply NoDup_fmap. intros z1 z2. apply addNode_id_inj.
Qed.

Lemma addNode_ids_witness :
  ∃ w' first second,
    addNode_calls [(half_jitter_platform, None); (half_jitter_platform, None)]
                  initialWorld = Ok tt w' ∧
    nodes (store w') = initialNodes ++ [first; second] ∧
    Node.id first = Node.id second.
Proof.
  destruct (addNode_ids_follow_the_clock
              [(half_jitter_platform, None); (half_jitter_platform, None)] initialWorld)
    as (w' & added & Hrun & Hnodes & Hlen & _ & Hsame & _).
  destruct added as [|first [|second [|third added]]]; try discriminate Hlen.
  exists w', first, second. split; [exact Hrun|]. split; [exact Hnodes|].
  by apply (Hsame 0 1 first second (half_jitter_platform, None)
                  (half_jitter_platform, None)).
Defined.

(** ** What the operations never touch *)






(** ** Rejected and accepted imports *)

Lemma truthy_field_lookup key members :
  truthy (field key (JObject members)) = truthy (lookup_member key members).
Proof. reflexivity. Qed.

(** X13. [importFromJSON] tests the two fields for truthiness, not for
    presence: a parsed value whose [nodes] or [edges] is missing, [null],
    [false], [0] or the empty string is rejected, with one console line and
    one alert and everything else unchanged; the error caught is a
    [TypeError] when the text is [null] itself and the format error
    otherwise. Whatever the text, the import returns normally with a
    rejection or with the store replaced, selection cleared and one save
    scheduled, unless the fields hold values that are no node and edge
    arrays. *)
Theorem importFromJSON_tests_truthiness (JSON : JSONCodec) (text : string) (w : World) :
  (∀ data,
     JSON_parse JSON text = Some data →
     truthy (field "nodes" data) = false ∨ truthy (field "edges" data) = false →
     importFromJSON JSON text w = Ok tt (after_failed_import (import_error data) w)) ∧
  ((∃ error, importFromJSON JSON text w = Ok tt (after_failed_import error w)) ∨
   (∃ ns es, importFromJSON JSON text w =
             Ok tt (after_mutation {| nodes := ns; edges := es; selectedNode := None |} w)) ∨
   importFromJSON JSON text w = Stuck).
Proof.
  split.
  - intros data Hparse Hfalsy.
    unfold importFromJSON, try_catch, bind, parse_or_throw. rewrite Hparse.
    destruct data as [|b|n|s|items|members]; simpl; try reflexivity.
    rewrite !truthy_field_lookup in Hfalsy.
    destruct (truthy (lookup_member "nodes" members)) eqn:Hnodes; [|reflexivity].
    simpl. destruct Hfalsy as [Hfalsy|Hfalsy]; [discriminate Hfalsy|].
    by rewrite Hfalsy.
  - unfold importFromJSON, try_catch, bind, parse_or_throw.
    destruct (JSON_parse JSON text) as [data|]; [|left; by eexists].
    destruct data as [|b|n|s|items|members]; simpl; try (left; by eexists).
    destruct (truthy (lookup_member "nodes" members)); [|left; by eexists].
    simpl.
    destruct (truthy (lookup_member "edges" members)); [|left; by eexists].
    unfold set_parsed.
    destruct (as_nodes (lookup_member "nodes" members)) as [ns|]; [|by right; right].
    destruct (as_edges (lookup_member "edges" members)) as [es|]; [|by right; right].
    right. left. by exists ns, es.
Qed.

Lemma importFromJSON_truthiness_witness :
  importFromJSON RefJSON.codec "null" initialWorld
    = Ok tt (after_failed_import TypeError initialWorld) ∧
  importFromJSON RefJSON.codec "{ }" initialWorld
    = Ok tt (after_failed_import (PlainError "Invalid JSON format") initialWorld) ∧
  importFromJSON RefJSON.codec
      (RefJSON.stringify (JObject [("nodes", JArray []); ("edges", JNumber (num_of_Z 0))]) 2)
      initialWorld
    = Ok tt (after_failed_import (PlainError "Invalid JSON format") initialWorld).
Proof.
  split; [|split].
  - apply (proj1 (importFromJSON_tests_truthiness RefJSON.codec "null" initialWorld) JNull).
    + vm_compute. reflexivity.
    + by left.
  - apply (proj1 (importFromJSON_tests_truthiness RefJSON.codec "{ }" initialWorld)
                 (JObject [])).
    + vm_compute. reflexivity.
    + by left.
  - apply (proj1 (importFromJSON_tests_truthiness RefJSON.codec _ initialWorld)
                 (JObject [("nodes", JArray []); ("edges", JNumber (num_of_Z 0))])).
    + apply RefJSONFacts.parse_stringify.
    + by right.
Defined.

(** X14. An import reads the [nodes] and [edges] members of the document
    and nothing else: whatever other members the document carries
    ([version], [exportedAt] or any other), in whatever order, and whatever
    the store held before, the store afterwards holds the document's nodes
    and edges, empty lists included, with no selection; one save is
    scheduled and nothing is printed. *)
Theorem importFromJSON_reads_only_nodes_and_edges (JSON : JSONCodec)
    (members : list (string * JsVal)) (ns : list Node.t) (es : list Edge.t)
    (indent : nat) (w : World) :
  round_trips JSON (JObject members) indent →
  lookup_member "nodes" members = Some (nodes_to_js ns) →
  lookup_member "edges" members = Some (edges_to_js es) →
  ∃ w',
    importFromJSON JSON (JSON_stringify JSON (JObject members) indent) w = Ok tt w' ∧
    store w' = {| nodes := ns; edges := es; selectedNode := None |} ∧
    timers w' = timers w ++ [100] ∧
    localStorage w' = localStorage w ∧
    console w' = console w ∧
    alerts w' = alerts w.
Proof.
  intros Hrt Hnodes Hedges. eexists.
  split; [by apply (importFromJSON_document JSON _ members)|]. done.
Qed.

Lemma importFromJSON_reads_witness :
  ∃ w',
    importFromJSON RefJSON.codec
      (RefJSON.stringify
         (JObject [("author", JString "someone"); ("edges", edges_to_js []);
                   ("nodes", nodes_to_js (tail initialNodes)); ("version", JNull)]) 4)
      selected_world = Ok tt w' ∧
    store w' = {| nodes := tail initialNodes; edges := []; selectedNode := None |}.
Proof.
  destruct (importFromJSON_reads_only_nodes_and_edges RefJSON.codec
              [("author", JString "someone"); ("edges", edges_to_js []);
               ("nodes", nodes_to_js (tail initialNodes)); ("version", JNull)]
              (tail initialNodes) [] 4 selected_world)
    as (w' & Hrun & Hstore & _).
  - apply RefJSONFacts.parse_stringify.
  - reflexivity.
  - reflexivity.
  - by exists w'.
Defined.

(** ** What a load can do *)

(** X15. [loadFromLocalStorage] is contained: whatever the storage holds,
    it never throws, alerts, writes the storage or schedules a save. It
    returns with the world unchanged, or with one more console line and
    the store unchanged, or with nodes and edges replaced and the selection
    cleared, unless the stored document holds no node and edge arrays. A
    stored empty text is skipped without a console line, and a stored
    [null] is reported as a [TypeError] with the store unchanged. *)
Theorem loadFromLocalStorage_is_contained (JSON : JSONCodec) (w : World) :
  ((∃ w', loadFromLocalStorage JSON w = Ok tt w' ∧
          localStorage w' = localStorage w ∧
          timers w' = timers w ∧
          alerts w' = alerts w ∧
          (w' = w ∨
           (∃ error, w' = after_failed_load error w) ∨
           (∃ ns es, w' = after_load ns es w))) ∨
   loadFromLocalStorage JSON w = Stuck) ∧
  (localStorage w !! STORAGE_KEY = Some "" → loadFromLocalStorage JSON w = Ok tt w) ∧
  (∀ saved,
     localStorage w !! STORAGE_KEY = Some saved →
     saved ≠ "" →
     JSON_parse JSON saved = Some JNull →
     loadFromLocalStorage JSON w = Ok tt (after_failed_load TypeError w)).
Proof.
  unfold loadFromLocalStorage, try_catch, bind, localStorage_getItem, parse_or_throw.
  split; [|split].
  - destruct (localStorage w !! STORAGE_KEY) as [saved|];
      [|left; exists w; repeat (split; [done|]); by left].
    destruct (String.eqb saved "");
      [left; exists w; repeat (split; [done|]); by left|].
    destruct (JSON_parse JSON saved) as [data|];
      [|left; eexists; split; [reflexivity|]; simpl; repeat (split; [done|]);
        right; left; by eexists].
    destruct data as [|b|n|s|items|members]; simpl; try (right; reflexivity).
    + left. eexists. split; [reflexivity|]. simpl. repeat (split; [done|]).
      right. left. by eexists.
    + unfold set_parsed.
      destruct (as_nodes (lookup_member "nodes" members)) as [ns|]; [|by right].
      destruct (as_edges (lookup_member "edges" members)) as [es|]; [|by right].
      left. eexists. split; [reflexivity|]. simpl. repeat (split; [done|]).
      right. right. by exists ns, es.
  - intros Hsaved. by rewrite Hsaved.
  - intros saved Hsaved Hne Hparse. apply String.eqb_neq in Hne.
    by rewrite Hsaved, Hne, Hparse.
Qed.

Lemma loadFromLocalStorage_contained_witness :
  ∃ w', loadFromLocalStorage RefJSON.codec
          {| store := initialState; localStorage := {[ STORAGE_KEY := "null" ]};
             timers := [100]; console := []; alerts := [] |} = Ok tt w' ∧
        store w' = initialState ∧
        console w' = [("Failed to load from localStorage:", TypeError)].
Proof.
  eexists. split; [|split].
  - apply (proj2 (proj2 (loadFromLocalStorage_is_contained RefJSON.codec
             {| store := initialState; localStorage := {[ STORAGE_KEY := "null" ]};
                timers := [100]; console := []; alerts := [] |})) "null").
    + reflexivity.
    + discriminate.
    + vm_compute. reflexivity.
  - reflexivity.
  - reflexivity.
Defined.

(** ** The node editor *)

Lemma set_same_selection w :
  setSelectedNode (selectedNode (store w)) w = Ok tt w.
Proof. by destruct w as [[ns es sel] ls ts c al]. Qed.

Lemma NodeEditor_handleSave_run form w :
  NodeEditor_handleSave form w =
  Ok tt match selectedNode (store w) with
        | Some selected =>
            after_mutation
              {| nodes := (λ node, if decide (Node.id node = Node.id selected)
                                   then with_merged_data (form_data form) node else node)
                          <$> nodes (store w);
                 edges := edges (store w);
                 selectedNode := None |} w
        | None => w
        end.
Proof.
  unfold NodeEditor_handleSave, NodeEditor_handleClose, bind, get.
  destruct (selectedNode (store w)) as [selected|] eqn:Hsel.
  - by rewrite updateNode_run.
  - unfold ret. rewrite <- Hsel. apply set_same_selection.
Qed.

(** X16. [handleSave] of the editor writes the form into every entry that
    has the id of the selection and closes the editor: such an entry gets
    the label and the description of the form and keeps its colour, its
    place and its visibility, every other entry and every edge is
    untouched, the selection is cleared and one save is scheduled. With no
    node selected it changes nothing. *)
Theorem NodeEditor_handleSave_writes_the_form (form : EditorForm) (w : World) :
  ∃ w',
    NodeEditor_handleSave form w = Ok tt w' ∧
    selectedNode (store w') = None ∧
    edges (store w') = edges (store w) ∧
    length (nodes (store w')) = length (nodes (store w)) ∧
    (selectedNode (store w) = None → w' = w) ∧
    (∀ selected, selectedNode (store w) = Some selected →
       timers w' = timers w ++ [100] ∧
       ∀ i node, nodes (store w) !! i = Some node →
         ∃ node', nodes (store w') !! i = Some node' ∧
                  placement node' = placement node ∧
                  Node.hidden node' = Node.hidden node ∧
                  (Node.id node ≠ Node.id selected → node' = node) ∧
                  (Node.id node = Node.id selected →
                     Node.data node' = saved_data form (Node.data node))).
Proof.
  eexists. split; [apply NodeEditor_handleSave_run|].
  destruct (selectedNode (store w)) as [selected|] eqn:Hsel; simpl.
  - split; [done|]. split; [done|]. split; [by rewrite length_fmap|].
    split; [done|]. intros ? [= <-]. split; [done|].
    intros i node Hi. rewrite list_lookup_fmap, Hi. simpl.
    eexists. split; [reflexivity|].
    by destruct (decide (Node.id node = Node.id selected)).
  - split; [done|]. split; [done|]. split; [done|]. split; [done|].
    intros selected Hselected. discriminate Hselected.
Qed.

Lemma NodeEditor_handleSave_witness :
  ∃ w' node',
    NodeEditor_handleSave {| form_label := "Begin"; form_description := "" |}
                          selected_world = Ok tt w' ∧
    nodes (store w') !! 0 = Some node' ∧
    Node.data node' = {| NodeData.label := "Begin";
                         NodeData.description := Some "";
                         NodeData.color := None |} ∧
    nodes (store w') !! 1 = nodes (store selected_world) !! 1.
Proof.
  destruct (NodeEditor_handleSave_writes_the_form
              {| form_label := "Begin"; form_description := "" |} selected_world)
    as (w' & Hrun & _ & _ & _ & _ & Hselected).
  destruct (Hselected _ eq_refl) as [_ Hnodes].
  destruct (Hnodes 0 _ eq_refl) as (node0 & H0 & _ & _ & _ & Hdata).
  destruct (Hnodes 1 _ eq_refl) as (node1 & H1 & _ & _ & Hsame & _).
  exists w', node0. split; [exact Hrun|]. split; [exact H0|].
  split; [exact (Hdata eq_refl)|]. rewrite H1, Hsame by discriminate. reflexivity.
Defined.

(** X17. Saving the form as the editor filled it in, without an edit,
    keeps an entry that carries the selected id and the data of the
    snapshot when that data has a description; an absent description is
    written back as the empty text. *)
Theorem NodeEditor_save_without_edit (selected : Node.t) (form : EditorForm) (w : World) :
  selectedNode (store w) = Some selected →
  ∃ w',
    NodeEditor_handleSave (NodeEditor_sync (Some selected) form) w = Ok tt w' ∧
    ∀ i node,
      nodes (store w) !! i = Some node →
      Node.id node = Node.id selected →
      Node.data node = Node.data selected →
      ∃ node',
        nodes (store w') !! i = Some node' ∧
        Node.data node' =
          {| NodeData.label := NodeData.label (Node.data node);
             NodeData.description :=
               Some (default "" (NodeData.description (Node.data node)));
             NodeData.color := NodeData.color (Node.data node) |} ∧
        (NodeData.description (Node.data node) ≠ None → node' = node) ∧
        (NodeData.description (Node.data node) = None → node' ≠ node).
Proof.
  intros Hsel. eexists. split; [apply NodeEditor_handleSave_run|].
  rewrite Hsel. simpl. intros i node Hi Hid Hdata.
  rewrite list_lookup_fmap, Hi. simpl. rewrite decide_True by done.
  eexists. split; [reflexivity|]. rewrite <- Hdata.
  destruct node as [id p [l [de|] co] t h]; simpl.
  - split; [done|]. split; [done|]. intros Hnone. discriminate Hnone.
  - split; [done|]. split; [done|]. intros _ Heq. discriminate Heq.
Qed.

Lemma NodeEditor_save_without_edit_witness :
  ∃ w',
    NodeEditor_handleSave
      (NodeEditor_sync (head initialNodes) {| form_label := ""; form_description := "" |})
      selected_world = Ok tt w' ∧
    nodes (store w') = nodes (store selected_world).
Proof.
  destruct (head initialNodes) as [selected|] eqn:Hhead; [|discriminate Hhead].
  destruct (NodeEditor_save_without_edit selected
              {| form_label := ""; form_description := "" |} selected_world)
    as (w' & Hrun & _).
  - simpl. exact Hhead.
  - exists w'. split; [exact Hrun|].
    injection Hhead as <-. vm_compute in Hrun. by injection Hrun as <-.
Defined.

(** X18. [handleDelete] of the editor does nothing when no node is
    selected or the dialog is declined. When it is accepted, the handler
    ends in the world [deleteNode] on the selected id ends in, the closing
    of the editor adding nothing: the entries of that id and the edges at
    it are gone, the rest is kept, and the selection is cleared. *)
Theorem NodeEditor_handleDelete_guards (w : World) :
  (selectedNode (store w) = None → ∀ confirmed, NodeEditor_handleDelete confirmed w = Ok tt w) ∧
  NodeEditor_handleDelete false w = Ok tt w ∧
  (∀ selected, selectedNode (store w) = Some selected →
     NodeEditor_handleDelete true w = deleteNode (Node.id selected) w ∧
     ∃ w',
       NodeEditor_handleDelete true w = Ok tt w' ∧
       selectedNode (store w') = None ∧
       (∀ node, node ∈ nodes (store w') ↔
                node ∈ nodes (store w) ∧ Node.id node ≠ Node.id selected) ∧
       (∀ edge, edge ∈ edges (store w') ↔
                edge ∈ edges (store w) ∧
                Edge.source edge ≠ Node.id selected ∧
                Edge.target edge ≠ Node.id selected)).
Proof.
  unfold NodeEditor_handleDelete, NodeEditor_handleClose, bind, get.
  split; [|split].
  - intros Hsel confirmed. by rewrite Hsel.
  - by destruct (selectedNode (store w)).
  - intros selected Hsel. rewrite Hsel, deleteNode_run. rewrite Hsel.
    rewrite decide_True by done.
    split; [reflexivity|]. eexists. split; [reflexivity|]. simpl.
    split; [done|]. split.
    + intros node. rewrite list_elem_of_filter. tauto.
    + intros edge. rewrite list_elem_of_filter. tauto.
Qed.

Lemma NodeEditor_handleDelete_witness :
  ∃ w',
    NodeEditor_handleDelete true selected_world = Ok tt w' ∧
    Node.id <$> nodes (store w') = ["2"; "node-1700000000000"] ∧
    edges (store w') = [] ∧
    selectedNode (store w') = None.
Proof.
  destruct (NodeEditor_handleDelete_guards selected_world) as (_ & _ & Haccepted).
  destruct (Haccepted _ eq_refl) as (_ & w' & Hrun & Hsel & _).
  exists w'. split; [exact Hrun|].
  vm_compute in Hrun. by injection Hrun as <-.
Defined.

(** X19. The editor saves as one types: after a change of the label field
    and a change of the description field, the entries of the selected id
    already carry both texts, the selection snapshot has followed, two
    saves are scheduled, and [handleSave] with the form then only closes
    the editor and schedules a third save: it changes no node. *)
Theorem NodeEditor_saves_as_typed (selected : Node.t) (label description : string)
    (w : World) :
  selectedNode (store w) = Some selected →
  ∃ w1 w2,
    (NodeEditor_onLabelChange label ;;; NodeEditor_onDescriptionChange description) w
      = Ok tt w1 ∧
    nodes (store w1) =
      (λ node, if decide (Node.id node = Node.id selected)
               then with_merged_data
                      (form_data {| form_label := label; form_description := description |})
                      node
               else node) <$> nodes (store w) ∧
    selectedNode (store w1) =
      Some (with_merged_data
              (form_data {| form_label := label; form_description := description |})
              selected) ∧
    timers w1 = timers w ++ [100; 100] ∧
    NodeEditor_handleSave {| form_label := label; form_description := description |} w1
      = Ok tt w2 ∧
    nodes (store w2) = nodes (store w1) ∧
    edges (store w2) = edges (store w) ∧
    selectedNode (store w2) = None ∧
    timers w2 = timers w ++ [100; 100; 100].
Proof.
  intros Hsel.
  unfold NodeEditor_onLabelChange, NodeEditor_onDescriptionChange, bind, get.
  rewrite Hsel, updateNode_run. simpl. rewrite Hsel. rewrite decide_True by done.
  simpl. rewrite updateNode_run. simpl. rewrite decide_True by done.
  eexists _, _. split; [reflexivity|]. simpl. split; [|split; [|split]].
  - rewrite <- list_fmap_compose. apply list_fmap_ext. intros i node _. simpl.
    destruct (decide (Node.id node = Node.id selected)) as [Hid|Hid].
    + rewrite decide_True by done. by destruct node as [id p [l de co] t h].
    + by rewrite decide_False.
  - by destruct selected as [id p [l de co] t h].
  - by rewrite <- app_assoc.
  - rewrite NodeEditor_handleSave_run. simpl. split; [reflexivity|]. simpl.
    split; [|split; [done|split; [done|by rewrite <- !app_assoc]]].
    rewrite <- (list_fmap_id (_ <$> (_ <$> nodes (store w)))) at 2.
    apply list_fmap_ext. intros i node Hi. simpl.
    destruct (decide (Node.id node = Node.id selected)) as [Hid|Hid]; [|done].
    rewrite <- list_fmap_compose, list_lookup_fmap in Hi.
    destruct (nodes (store w) !! i) as [node0|]; [|discriminate Hi].
    simpl in Hi. injection Hi as <-.
    destruct (decide (Node.id node0 = Node.id selected)) as [Hid0|Hid0].
    + rewrite decide_True by done. by destruct node0 as [id p [l de co] t h].
    + by rewrite decide_False in Hid |- * by done.
Qed.

Lemma NodeEditor_saves_as_typed_witness :
  ∃ w1 w2 node,
    (NodeEditor_onLabelChange "Begin" ;;; NodeEditor_onDescriptionChange "First step")
      selected_world = Ok tt w1 ∧
    nodes (store w1) !! 0 = Some node ∧
    NodeData.label (Node.data node) = "Begin" ∧
    NodeData.description (Node.data node) = Some "First step" ∧
    NodeEditor_handleSave {| form_label := "Begin"; form_description := "First step" |} w1
      = Ok tt w2 ∧
    nodes (store w2) = nodes (store w1).
Proof.
  destruct (head initialNodes) as [selected|] eqn:Hhead; [|discriminate Hhead].
  destruct (NodeEditor_saves_as_typed selected "Begin" "First step" selected_world)
    as (w1 & w2 & Hrun & Hnodes & _ & _ & Hsave & Hsame & _).
  - simpl. exact Hhead.
  - injection Hhead as <-.
    eexists w1, w2, _. split; [exact Hrun|]. rewrite Hnodes.
    split; [reflexivity|]. split; [reflexivity|]. split; [reflexivity|].
    split; [exact Hsave|]. by rewrite Hsame, Hnodes.
Defined.

(** ** The toolbar *)

Example RefParseInt_examples :
  RefParseInt.parseInt "100" = Some 100%Z ∧
  RefParseInt.parseInt "  42px" = Some 42%Z ∧
  RefParseInt.parseInt "1e3" = Some 1%Z ∧
  RefParseInt.parseInt "0x1F" = Some 31%Z ∧
  RefParseInt.parseInt "-7" = Some (-7)%Z ∧
  RefParseInt.parseInt "12.9" = Some 12%Z ∧
  RefParseInt.parseInt "abc" = None ∧
  RefParseInt.parseInt " " = None ∧
  RefParseInt.parseInt "" = None.
Proof. repeat split. Qed.

(** X20. [handleGenerateBulk] guards the bulk generation: a cancelled or
    empty answer does nothing; an answer whose integer reading is between
    1 and 10000 runs [generateBulkNodes] with that number and appends that
    many nodes; any other answer only raises the alert. So the handler
    never appends more than 10000 nodes, and never touches the edges or the
    selection. *)
Theorem Toolbar_handleGenerateBulk_guards (parseInt : string → option Z)
    (env : Platform) (answer : option string) (w : World) :
  (answer = None ∨ answer = Some "" →
   Toolbar_handleGenerateBulk parseInt env answer w = Ok tt w) ∧
  (∀ count num,
     answer = Some count → count ≠ "" → parseInt count = Some num →
     (1 ≤ num ≤ 10000)%Z →
     Toolbar_handleGenerateBulk parseInt env answer w
       = generateBulkNodes env (Z.to_nat num) w ∧
     ∃ w', generateBulkNodes env (Z.to_nat num) w = Ok tt w' ∧
           length (nodes (store w')) = length (nodes (store w)) + Z.to_nat num ∧
           alerts w' = alerts w) ∧
  (∀ count,
     answer = Some count → count ≠ "" →
     (parseInt count = None ∨
      ∃ num, parseInt count = Some num ∧ (num ≤ 0 ∨ 10000 < num)%Z) →
     Toolbar_handleGenerateBulk parseInt env answer w = Ok tt (after_invalid_count w)) ∧
  (∃ w' added,
     Toolbar_handleGenerateBulk parseInt env answer w = Ok tt w' ∧
     nodes (store w') = nodes (store w) ++ added ∧
     (Z.of_nat (length added) ≤ 10000)%Z ∧
     edges (store w') = edges (store w) ∧
     selectedNode (store w') = selectedNode (store w) ∧
     localStorage w' = localStorage w).
Proof.
  unfold Toolbar_handleGenerateBulk.
  split; [|split; [|split]].
  - by intros [->| ->].
  - intros count num -> Hne Hparse Hrange.
    apply String.eqb_neq in Hne. rewrite Hne, Hparse.
    replace (0 <? num)%Z with true by (symmetry; apply Z.ltb_lt; lia).
    replace (num <=? 10000)%Z with true by (symmetry; apply Z.leb_le; lia).
    split; [reflexivity|]. eexists. split; [apply generateBulkNodes_run|]. simpl.
    split; [|done]. by rewrite length_app, length_fmap, length_seq.
  - intros count -> Hne Hbad.
    apply String.eqb_neq in Hne. rewrite Hne.
    destruct Hbad as [->|(num & -> & Hrange)]; [reflexivity|].
    destruct Hrange as [Hlow|Hhigh].
    + by replace (0 <? num)%Z with false by (symmetry; apply Z.ltb_ge; lia).
    + replace (num <=? 10000)%Z with false by (symmetry; apply Z.leb_gt; lia).
      by rewrite andb_false_r.
  - assert (Hstay : ∃ w' added, Ok tt w = Ok tt w' ∧
              nodes (store w') = nodes (store w) ++ added ∧ (Z.of_nat (length added) ≤ 10000)%Z ∧
              edges (store w') = edges (store w) ∧
              selectedNode (store w') = selectedNode (store w) ∧
              localStorage w' = localStorage w).
    { exists w, []. rewrite app_nil_r. simpl. split; [done|]. split; [done|].
      split; [lia|done]. }
    assert (Halert : ∃ w' added,
              alert "Please enter a valid number between 1 and 10000" w = Ok tt w' ∧
              nodes (store w') = nodes (store w) ++ added ∧ (Z.of_nat (length added) ≤ 10000)%Z ∧
              edges (store w') = edges (store w) ∧
              selectedNode (store w') = selectedNode (store w) ∧
              localStorage w' = localStorage w).
    { eexists _, []. split; [reflexivity|]. simpl. rewrite app_nil_r.
      split; [done|]. split; [lia|done]. }
    destruct answer as [count|]; [|exact Hstay].
    destruct (String.eqb count ""); [exact Hstay|].
    destruct (parseInt count) as [num|]; [|exact Halert].
    destruct (0 <? num)%Z eqn:Hlow; [|exact Halert].
    destruct (num <=? 10000)%Z eqn:Hhigh; [|exact Halert].
    simpl. eexists _, _. split; [apply generateBulkNodes_run|]. simpl.
    split; [reflexivity|]. split; [|done].
    rewrite length_fmap, length_seq. apply Z.leb_le in Hhigh. lia.
Qed.

Lemma Toolbar_handleGenerateBulk_witness :
  (∃ w', Toolbar_handleGenerateBulk RefParseInt.parseInt half_jitter_platform
           (Some "12 nodes") initialWorld = Ok tt w' ∧
         length (nodes (store w')) = 14) ∧
  Toolbar_handleGenerateBulk RefParseInt.parseInt half_jitter_platform
    (Some "10001") initialWorld = Ok tt (after_invalid_count initialWorld) ∧
  Toolbar_handleGenerateBulk RefParseInt.parseInt half_jitter_platform
    (Some "many") initialWorld = Ok tt (after_invalid_count initialWorld).
Proof.
  destruct (Toolbar_handleGenerateBulk_guards RefParseInt.parseInt half_jitter_platform
              (Some "12 nodes") initialWorld) as (_ & Hvalid & _).
  destruct (Hvalid "12 nodes" 12%Z) as (Hrun & w' & Hbulk & Hlen & _);
    [reflexivity|discriminate|reflexivity|lia|].
  split; [|split].
  - exists w'. rewrite Hrun. split; [exact Hbulk|]. rewrite Hlen. reflexivity.
  - apply (proj1 (proj2 (proj2 (Toolbar_handleGenerateBulk_guards RefParseInt.parseInt
             half_jitter_platform (Some "10001") initialWorld))) "10001");
      [reflexivity|discriminate|].
    right. exists 10001%Z. split; [reflexivity|lia].
  - apply (proj1 (proj2 (proj2 (Toolbar_handleGenerateBulk_guards RefParseInt.parseInt
             half_jitter_platform (Some "many") initialWorld))) "many");
      [reflexivity|discriminate|].
    by left.
Defined.

(** ** The grid of bulk nodes *)







(** ** Storage and store over time *)







